(** * A shallow embedding of the Tic-Tac-Toe session server (server.js)

    The file follows the layout of the source: the board helpers and the
    [GameRoom] class first, then the two registries and the socket event
    handlers, then the properties. *)

From Stdlib Require Import ZArith Bool.
From stdpp Require Import base decidable option list strings gmap.

Local Open Scope string_scope.
Local Open Scope list_scope.
Local Open Scope nat_scope.

(** ** Marks, cells and room status *)

(** The two symbols ['X'] and ['O']. *)
Inductive Mark := X | O.

(** The three status strings ['waiting'], ['playing'], ['finished']. *)
Inductive Status := waiting | playing | finished.

#[global] Instance Mark_eq_dec : EqDecision Mark.
Proof. solve_decision. Defined.

#[global] Instance Status_eq_dec : EqDecision Status.
Proof. solve_decision. Defined.

(** A board cell: [None] is JavaScript's [null], [Some m] a mark. *)
Definition Cell := option Mark.

(** [board[i]] for an integer [i]: the outer [None] is [undefined], which
    JavaScript yields for every index that is not an element of the array
    (negative, or past the end). *)
Definition at_index (b : list Cell) (i : Z) : option Cell :=
  if (i <? 0)%Z then None else b !! Z.to_nat i.

(** [Array(9).fill(null)] *)
Definition empty_board : list Cell := replicate 9 None.

(** [c === 'X' ? 'O' : 'X'] *)
Definition toggle (c : Mark) : Mark :=
  match c with X => O | O => X end.

(** ** checkWinner *)

Definition winPatterns : list (nat * nat * nat) :=
  [ (0, 1, 2); (3, 4, 5); (6, 7, 8);   (* rows *)
    (0, 3, 6); (1, 4, 7); (2, 5, 8);   (* columns *)
    (0, 4, 8); (2, 4, 6) ].            (* diagonals *)

(** The body of the loop for one pattern [[a, b, c]]: [board[a]] must be
    truthy (a mark, neither [null] nor [undefined]) and strictly equal to
    [board[b]] and to [board[c]]; the value returned is [board[a]]. *)
Definition pattern_mark (b : list Cell) (p : nat * nat * nat) : option Mark :=
  let '(i, j, k) := p in
  match b !! i with
  | Some (Some m) =>
      if bool_decide (b !! j = Some (Some m)) && bool_decide (b !! k = Some (Some m))
      then Some m else None
  | _ => None
  end.

(** The [for (const pattern of winPatterns)] loop with its early return. *)
Fixpoint scan_patterns (b : list Cell) (ps : list (nat * nat * nat)) : option Mark :=
  match ps with
  | [] => None
  | p :: ps' =>
      match pattern_mark b p with
      | Some m => Some m
      | None => scan_patterns b ps'
      end
  end.

Definition checkWinner (b : list Cell) : option Mark :=
  scan_patterns b winPatterns.

(** ** class GameRoom *)

Module GameRoom.

(** An element of [this.players]. *)
Record PlayerEntry := mkEntry {
  socketId : string;
  name : string;
  symbol : Mark
}.

Record t := mk {
  id : string;
  isPublic : bool;
  creatorId : string;
  players : list PlayerEntry;
  board : list Cell;
  currentPlayer : Mark;
  status : Status;
  winner : option Mark;
  moves : nat
}.

Definition with_players (ps : list PlayerEntry) (r : t) : t :=
  mk (id r) (isPublic r) (creatorId r) ps (board r) (currentPlayer r)
     (status r) (winner r) (moves r).

Definition with_status (s : Status) (r : t) : t :=
  mk (id r) (isPublic r) (creatorId r) (players r) (board r) (currentPlayer r)
     s (winner r) (moves r).

(** [constructor(id, isPublic, creatorId)] *)
Definition new (rid : string) (pub : bool) (creator : string) : t :=
  mk rid pub creator [] empty_board X waiting None 0.

(** [addPlayer(socketId, playerName)]: the returned boolean and the room
    after the call. *)
Definition addPlayer (sid nm : string) (r : t) : bool * t :=
  if bool_decide (2 ≤ length (players r))%nat then (false, r)
  else
    let playerSymbol := if bool_decide (length (players r) = 0) then X else O in
    let r1 := with_players (players r ++ [mkEntry sid nm playerSymbol]) r in
    let r2 := if bool_decide (length (players r1) = 2)
              then with_status playing r1 else r1 in
    (true, r2).

(** [reset()] *)
Definition reset (r : t) : t :=
  mk (id r) (isPublic r) (creatorId r) (players r)
     empty_board X
     (if bool_decide (length (players r) = 2) then playing else waiting)
     None 0.

(** [removePlayer(socketId)] *)
Definition removePlayer (sid : string) (r : t) : t :=
  let r1 := with_players (filter (λ p, socketId p ≠ sid) (players r)) r in
  if bool_decide (length (players r1) = 0)
  then reset (with_status waiting r1)
  else r1.

(** [makeMove(index, socketId)]: the returned boolean and the room after
    the call.  [index] is the integer the client sent.
    [this.board[index] !== null] holds for a mark and for [undefined]; the
    write [this.board[index] = ...] is therefore only reached for an index
    inside the array, where it replaces the cell (the list update below is
    never applied out of range).  [find] returns the first entry with the
    caller's id. *)
Definition makeMove (index : Z) (sid : string) (r : t) : bool * t :=
  if bool_decide (status r ≠ playing) then (false, r)
  else
    match at_index (board r) index with
    | Some None =>
        match find (λ p, String.eqb (socketId p) sid) (players r) with
        | None => (false, r)
        | Some player =>
            if bool_decide (symbol player ≠ currentPlayer r) then (false, r)
            else
              let board' := <[Z.to_nat index := Some (currentPlayer r)]> (board r) in
              let moves' := S (moves r) in
              let winner' := checkWinner board' in
              if bool_decide (is_Some winner') || bool_decide (moves' = 9)
              then (true, mk (id r) (isPublic r) (creatorId r) (players r)
                             board' (currentPlayer r) finished winner' moves')
              else (true, mk (id r) (isPublic r) (creatorId r) (players r)
                             board' (toggle (currentPlayer r)) (status r)
                             winner' moves')
        end
    | _ => (false, r)
    end.

End GameRoom.

(** ** JavaScript [Map] with its iteration order

    [Array.from(rooms.values())] lists the rooms in insertion order, so the
    room registry is an association list: [set] on a key already present
    replaces the value in place, [set] on a new key appends. *)

Module JsMap.
Section Ops.
Context {V : Type}.

Definition t := list (string * V).

Fixpoint get (k : string) (m : t) : option V :=
  match m with
  | [] => None
  | (k', v) :: m' => if String.eqb k k' then Some v else get k m'
  end.

Fixpoint set (k : string) (v : V) (m : t) : t :=
  match m with
  | [] => [(k, v)]
  | (k', v') :: m' =>
      if String.eqb k k' then (k', v) :: m' else (k', v') :: set k v m'
  end.

Fixpoint delete (k : string) (m : t) : t :=
  match m with
  | [] => []
  | (k', v) :: m' =>
      if String.eqb k k' then delete k m' else (k', v) :: delete k m'
  end.

Definition values (m : t) : list V := map snd m.
End Ops.
Arguments t : clear implicits.
End JsMap.

(** ** The registries and what a handler emits *)

(** A value of the [players] map ([socketId -> player info]).  The source
    creates it as [{ name, roomId: null }]; [readyForRematch] is then absent
    and reads as [undefined], which the only reader treats as [false]. *)
Record PlayerInfo := mkPlayer {
  name : string;
  roomId : option string;
  readyForRematch : bool
}.

(** A string is falsy exactly when it is empty. *)
Definition truthy (s : string) : bool :=
  match s with EmptyString => false | _ => true end.

(** [player.roomId] when it is truthy. *)
Definition bound_room (p : PlayerInfo) : option string :=
  match roomId p with
  | Some rid => if truthy rid then Some rid else None
  | None => None
  end.

(** The two module-level maps [rooms] and [players]. *)
Record Server := mkServer {
  rooms : JsMap.t GameRoom.t;
  players : gmap string PlayerInfo
}.

Definition init : Server := mkServer [] ∅.

(** JSON values of the flat object [getPublicInfo] builds. *)
Inductive JsValue :=
| JStr (s : string)
| JBool (b : bool)
| JNum (n : nat).

Definition status_string (s : Status) : string :=
  match s with
  | waiting => "waiting"
  | playing => "playing"
  | finished => "finished"
  end.

(** [getPublicInfo()]: the object literal, as its list of properties in
    the order written. *)
Definition getPublicInfo (r : GameRoom.t) : list (string * JsValue) :=
  [ ("id", JStr (GameRoom.id r));
    ("isPublic", JBool (GameRoom.isPublic r));
    ("playersCount", JNum (length (GameRoom.players r)));
    ("status", JStr (status_string (GameRoom.status r))) ].

(** Property access [o.k] on such an object: [None] is [undefined]. *)
Definition prop (k : string) (o : list (string * JsValue)) : option JsValue :=
  snd <$> find (λ kv, String.eqb (fst kv) k) o.

(** [getPublicRooms()] *)
Definition getPublicRooms (rs : JsMap.t GameRoom.t) : list (list (string * JsValue)) :=
  map getPublicInfo
      (List.filter (λ room, GameRoom.isPublic room
                            && bool_decide (GameRoom.status room = waiting))
                   (JsMap.values rs)).

(** An element of the [players] array of the ['game-state'] payload. *)
Record PlayerView := mkView {
  view_name : string;
  view_symbol : Mark;
  isCurrentPlayer : bool
}.

(** The ['game-state'] payload built by [updateRoomState]. *)
Record GameState := mkState {
  state_board : list Cell;
  state_currentPlayer : Mark;
  state_status : Status;
  state_winner : option Mark;
  state_players : list PlayerView;
  isDraw : bool
}.

Definition snapshot (room : GameRoom.t) : GameState :=
  mkState (GameRoom.board room) (GameRoom.currentPlayer room)
          (GameRoom.status room) (GameRoom.winner room)
          (map (λ p, mkView (GameRoom.name p) (GameRoom.symbol p)
                            (bool_decide (GameRoom.symbol p = GameRoom.currentPlayer room)))
               (GameRoom.players room))
          (bool_decide (GameRoom.moves room = 9)
           && negb (bool_decide (is_Some (GameRoom.winner room)))).

(** Event names and payloads sent to clients. *)
Inductive Message :=
| public_rooms (l : list (list (string * JsValue)))
| room_created (rid : string) (pub : bool)
| error (message : string)
| room_joined (rid : string)
| game_state (s : GameState)
| rematch_requested.

(** Who an [emit] addresses: [socket.emit], [io.to(room).emit],
    [socket.to(room).emit] (the room without the sender) and [io.emit]. *)
Inductive Target :=
| ToSocket (sid : string)
| ToRoom (rid : string)
| ToRoomExcept (rid sid : string)
| ToAll.

(** What a handler asks of the transport, in program order. *)
Inductive Action :=
| Emit (to : Target) (m : Message)
| SocketJoin (sid rid : string)
| SocketLeave (sid rid : string).

(** [updateRoomState(roomId)] *)
Definition updateRoomState (rid : string) (st : Server) : list Action :=
  match JsMap.get rid (rooms st) with
  | None => []
  | Some room => [Emit (ToRoom rid) (game_state (snapshot room))]
  end.

(** [player.roomId = v] on the record stored under [sid], when there is one. *)
Definition set_roomId (sid : string) (v : option string)
    (ps : gmap string PlayerInfo) : gmap string PlayerInfo :=
  match ps !! sid with
  | Some p => <[sid := mkPlayer (name p) v (readyForRematch p)]> ps
  | None => ps
  end.

(** [player.readyForRematch = v] on the record stored under [sid], when
    there is one. *)
Definition set_ready (sid : string) (v : bool)
    (ps : gmap string PlayerInfo) : gmap string PlayerInfo :=
  match ps !! sid with
  | Some p => <[sid := mkPlayer (name p) (roomId p) v]> ps
  | None => ps
  end.

(** [players.get(sid)?.readyForRematch], as a truth value. *)
Definition is_ready (ps : gmap string PlayerInfo) (sid : string) : bool :=
  match ps !! sid with
  | Some p => readyForRematch p
  | None => false
  end.

(** ** The socket event handlers

    Each handler runs to completion on the two registries and returns the
    registries afterwards together with the transport actions it issued.
    A [GameRoom] object is mutated in place in the source; here the mutated
    room is written back under its key, which leaves its position in the
    registry unchanged. *)

(** ['join-lobby'] *)
Definition join_lobby (sid playerName : string) (st : Server) : Server * list Action :=
  let st1 := mkServer (rooms st)
                      (<[sid := mkPlayer playerName None false]> (players st)) in
  (st1, [Emit (ToSocket sid) (public_rooms (getPublicRooms (rooms st1)))]).

(** ['create-room'].  [roomId] is the value [generateRoomId()] returned for
    this call. *)
Definition create_room (sid roomId : string) (isPublic : bool) (playerName : string)
    (st : Server) : Server * list Action :=
  let room := snd (GameRoom.addPlayer sid playerName (GameRoom.new roomId isPublic sid)) in
  let st1 := mkServer (JsMap.set roomId room (rooms st))
                      (set_roomId sid (Some roomId) (players st)) in
  (st1,
   [SocketJoin sid roomId; Emit (ToSocket sid) (room_created roomId isPublic)]
   ++ (if isPublic then [Emit ToAll (public_rooms (getPublicRooms (rooms st1)))] else [])
   ++ updateRoomState roomId st1).

(** ['join-room'] *)
Definition join_room (sid roomId playerName : string) (st : Server)
    : Server * list Action :=
  match JsMap.get roomId (rooms st) with
  | None => (st, [Emit (ToSocket sid) (error "Room not found")])
  | Some room =>
      if bool_decide (2 ≤ length (GameRoom.players room))%nat
      then (st, [Emit (ToSocket sid) (error "Room is full")])
      else if bool_decide (GameRoom.status room = playing)
              || bool_decide (GameRoom.status room = finished)
      then (st, [Emit (ToSocket sid) (error "Game already in progress")])
      else
        let room' := snd (GameRoom.addPlayer sid playerName room) in
        let st1 := mkServer (JsMap.set roomId room' (rooms st))
                            (set_roomId sid (Some roomId) (players st)) in
        (st1,
         [SocketJoin sid roomId; Emit (ToSocket sid) (room_joined roomId)]
         ++ updateRoomState roomId st1
         ++ (if GameRoom.isPublic room'
             then [Emit ToAll (public_rooms (getPublicRooms (rooms st1)))] else []))
  end.

(** ['make-move'] *)
Definition make_move (sid roomId : string) (index : Z) (st : Server)
    : Server * list Action :=
  match JsMap.get roomId (rooms st) with
  | None => (st, [])
  | Some room =>
      let '(ok, room') := GameRoom.makeMove index sid room in
      if ok
      then let st1 := mkServer (JsMap.set roomId room' (rooms st)) (players st) in
           (st1, updateRoomState roomId st1)
      else (st, [])
  end.

(** ['request-rematch'] *)
Definition request_rematch (sid roomId : string) (st : Server)
    : Server * list Action :=
  match JsMap.get roomId (rooms st) with
  | None => (st, [])
  | Some room =>
      if bool_decide (GameRoom.status room ≠ finished) then (st, [])
      else
        let ps1 := set_ready sid true (players st) in
        if bool_decide (length (GameRoom.players room) = 2)
        then
          let allReady :=
            forallb (λ p, is_ready ps1 (GameRoom.socketId p)) (GameRoom.players room) in
          if allReady
          then
            let ps2 := foldl (λ ps p, set_ready (GameRoom.socketId p) false ps)
                             ps1 (GameRoom.players room) in
            let st2 := mkServer (JsMap.set roomId (GameRoom.reset room) (rooms st)) ps2 in
            (st2, updateRoomState roomId st2)
          else (mkServer (rooms st) ps1,
                [Emit (ToRoomExcept roomId sid) rematch_requested])
        else (mkServer (rooms st) ps1, [])
  end.

(** ['leave-room'] *)
Definition leave_room (sid : string) (st : Server) : Server * list Action :=
  match players st !! sid with
  | None => (st, [])
  | Some player =>
      match bound_room player with
      | None => (st, [])
      | Some rid =>
          let '(rs, acts) :=
            match JsMap.get rid (rooms st) with
            | None => (rooms st, [])
            | Some room =>
                let room' := GameRoom.removePlayer sid room in
                let rs1 := JsMap.set rid room' (rooms st) in
                let upd := updateRoomState rid (mkServer rs1 (players st)) in
                let rs2 := if bool_decide (length (GameRoom.players room') = 0)
                           then JsMap.delete rid rs1 else rs1 in
                (rs2,
                 [SocketLeave sid rid] ++ upd
                 ++ (if GameRoom.isPublic room'
                     then [Emit ToAll (public_rooms (getPublicRooms rs2))] else []))
            end in
          (mkServer rs (set_roomId sid None (players st)), acts)
      end
  end.

(** ['disconnect'] *)
Definition disconnect (sid : string) (st : Server) : Server * list Action :=
  let '(rs, acts) :=
    match players st !! sid with
    | None => (rooms st, [])
    | Some player =>
        match bound_room player with
        | None => (rooms st, [])
        | Some rid =>
            match JsMap.get rid (rooms st) with
            | None => (rooms st, [])
            | Some room =>
                let room' := GameRoom.removePlayer sid room in
                let rs1 := JsMap.set rid room' (rooms st) in
                let upd := updateRoomState rid (mkServer rs1 (players st)) in
                if bool_decide (length (GameRoom.players room') = 0)
                then (JsMap.delete rid rs1, upd)
                else (rs1,
                      upd ++ (if GameRoom.isPublic room'
                              then [Emit ToAll (public_rooms (getPublicRooms rs1))]
                              else []))
            end
        end
    end in
  (mkServer rs (delete sid (players st)), acts).

(** Inbound events, each tagged with the socket it arrives on. *)
Inductive Event :=
| JoinLobby (sid playerName : string)
| CreateRoom (sid roomId : string) (isPublic : bool) (playerName : string)
| JoinRoom (sid roomId playerName : string)
| MakeMove (sid roomId : string) (index : Z)
| RequestRematch (sid roomId : string)
| LeaveRoom (sid : string)
| Disconnect (sid : string).

Definition handle (e : Event) (st : Server) : Server * list Action :=
  match e with
  | JoinLobby sid n => join_lobby sid n st
  | CreateRoom sid rid pub n => create_room sid rid pub n st
  | JoinRoom sid rid n => join_room sid rid n st
  | MakeMove sid rid i => make_move sid rid i st
  | RequestRematch sid rid => request_rematch sid rid st
  | LeaveRoom sid => leave_room sid st
  | Disconnect sid => disconnect sid st
  end.

(** Handlers run one after the other, each to completion. *)
Fixpoint run (es : list Event) (st : Server) : Server * list Action :=
  match es with
  | [] => (st, [])
  | e :: es' =>
      let '(st1, out1) := handle e st in
      let '(st2, out2) := run es' st1 in
      (st2, out1 ++ out2)
  end.

(** The registries some sequence of events leads to from the empty ones. *)
Inductive reachable : Server → Prop :=
| reachable_init : reachable init
| reachable_step st e : reachable st → reachable (fst (handle e st)).

(** ** Room identifiers *)

(** [s.toUpperCase()] on one character of an ASCII string. *)
Definition upper (c : Ascii.ascii) : Ascii.ascii :=
  if (97 <=? Ascii.nat_of_ascii c) && (Ascii.nat_of_ascii c <=? 122)
  then Ascii.ascii_of_nat (Ascii.nat_of_ascii c - 32) else c.

Fixpoint toUpperCase (s : string) : string :=
  match s with
  | EmptyString => EmptyString
  | String c s' => String (upper c) (toUpperCase s')
  end.

(** [generateRoomId()], as a function of the string
    [Math.random().toString(36)] the call obtained: its characters 2 to 7
    ([substring(2, 8)], shorter when the string is), in upper case. *)
Definition generateRoomId (random36 : string) : string :=
  toUpperCase (String.substring 2 6 random36).

(** ** Allowed origins and the CORS middleware *)

(** The separator [','] (code 44). *)
Definition comma : Ascii.ascii := Ascii.ascii_of_nat 44.

(** [s.split(',')] *)
Fixpoint split_comma (s : string) : list string :=
  match s with
  | EmptyString => [EmptyString]
  | String c s' =>
      if Ascii.eqb c comma then EmptyString :: split_comma s'
      else match split_comma s' with
           | piece :: rest => String c piece :: rest
           | [] => [String c EmptyString]
           end
  end.

(** [allowedOrigins], from the environment variable [ALLOWED_ORIGINS]
    ([None] when it is not set; the empty string is falsy as well). *)
Definition allowedOrigins (env : option string) : list string :=
  match env with
  | Some s => if truthy s then split_comma s else ["http://localhost:3000"]
  | None => ["http://localhost:3000"]
  end.

(** What the middleware reads of a request: [req.headers.origin], absent
    ([undefined]) or a string, and [req.method]. *)
Record Request := mkRequest {
  origin : option string;
  method : string
}.

(** What the middleware does with the response, in program order:
    [res.header(field, value)], [res.sendStatus(code)] and [next()]. *)
Inductive Reply :=
| SetHeader (field : string) (value : option string)
| SendStatus (code : nat)
| CallNext.

(** [allowedOrigins.includes(v)] for [v] a string or [undefined]. *)
Definition includes (l : list string) (v : option string) : bool :=
  match v with
  | Some s => bool_decide (s ∈ l)
  | None => false
  end.

(** The CORS middleware passed to [app.use]. *)
Definition cors (allowed : list string) (req : Request) : list Reply :=
  (if includes allowed (origin req) || includes allowed (Some "*")
   then [ SetHeader "Access-Control-Allow-Origin" (origin req);
          SetHeader "Access-Control-Allow-Credentials" (Some "true");
          SetHeader "Access-Control-Allow-Methods" (Some "GET, POST, OPTIONS");
          SetHeader "Access-Control-Allow-Headers"
                    (Some "Origin, X-Requested-With, Content-Type, Accept") ]
   else [])
  ++ (if String.eqb (method req) "OPTIONS" then [SendStatus 200] else [CallNext]).

(** * Vocabulary of the properties *)

(** ** Lines of the board *)

(** Mark [m] occupies all three cells of the triple [p]. *)
Definition occupies (b : list Cell) (m : Mark) (p : nat * nat * nat) : Prop :=
  b !! p.1.1 = Some (Some m) ∧ b !! p.1.2 = Some (Some m) ∧ b !! p.2 = Some (Some m).

(** The lines of the 3x3 grid, cells numbered row by row. *)
Definition rows : list (nat * nat * nat) :=
  map (λ r, (3 * r, 3 * r + 1, 3 * r + 2)) [0; 1; 2].

Definition columns : list (nat * nat * nat) :=
  map (λ c, (c, c + 3, c + 6)) [0; 1; 2].

Definition diagonals : list (nat * nat * nat) := [(0, 4, 8); (2, 4, 6)].

(** [p] is the first triple of [ps] that one mark occupies fully, and that
    mark is [m]. *)
Definition first_full (b : list Cell) (ps : list (nat * nat * nat))
    (m : Mark) (p : nat * nat * nat) : Prop :=
  ∃ l1 l2, ps = l1 ++ p :: l2 ∧ occupies b m p
           ∧ ∀ q m', q ∈ l1 → ¬ occupies b m' q.

(** At most one mark has a fully occupied winning triple on [b]. *)
Definition one_sided (b : list Cell) : Prop :=
  ∀ p q m m', p ∈ winPatterns → q ∈ winPatterns →
              occupies b m p → occupies b m' q → m = m'.

(** A board no play produces: X holds the top row and O the middle row. *)
Definition two_lines : list Cell :=
  [Some X; Some X; Some X; Some O; Some O; Some O; None; None; None].

(** ** Seats of a room *)

(** [p] is the first entry of [ps] whose connection id is [sid]: the entry
    [Array.prototype.find] returns. *)
Definition first_entry (sid : string) (ps : list GameRoom.PlayerEntry)
    (p : GameRoom.PlayerEntry) : Prop :=
  ∃ l1 l2, ps = l1 ++ p :: l2 ∧ GameRoom.socketId p = sid
           ∧ ∀ q, q ∈ l1 → GameRoom.socketId q ≠ sid.

(** Some entry of [ps] has connection id [sid] and mark [m]. *)
Definition some_entry (sid : string) (m : Mark) (ps : list GameRoom.PlayerEntry) : Prop :=
  ∃ p, p ∈ ps ∧ GameRoom.socketId p = sid ∧ GameRoom.symbol p = m.

(** A room created by A which B then joined. *)
Definition room_AB : GameRoom.t :=
  (GameRoom.addPlayer "B" "bob"
     (GameRoom.addPlayer "A" "alice" (GameRoom.new "R1" true "A")).2).2.

(** A room whose creator A also took the second seat, after A's opening
    move on cell 0: it is O's turn, and both entries carry A's id. *)
Definition room_AA : GameRoom.t :=
  (GameRoom.makeMove 0 "A"
     (GameRoom.addPlayer "A" "alice"
        (GameRoom.addPlayer "A" "alice" (GameRoom.new "R1" true "A")).2).2).2.

(** ** Room invariant of the specification *)

(** [players.length == 2] implies [status] is playing or finished. *)
Definition full_started (r : GameRoom.t) : Prop :=
  length (GameRoom.players r) = 2 →
  GameRoom.status r = playing ∨ GameRoom.status r = finished.

(** [players.length < 2] implies [status == waiting]. *)
Definition short_waiting (r : GameRoom.t) : Prop :=
  length (GameRoom.players r) < 2 → GameRoom.status r = waiting.

Definition RoomInv (r : GameRoom.t) : Prop := full_started r ∧ short_waiting r.

(** ** Sequences of [addPlayer] calls *)

(** The calls [(socketId, playerName)] made one after the other on a room:
    the booleans returned, in order, and the room after the last call. *)
Fixpoint addPlayers (calls : list (string * string)) (r : GameRoom.t)
    : list bool * GameRoom.t :=
  match calls with
  | [] => ([], r)
  | (sid, nm) :: calls' =>
      let '(ok, r1) := GameRoom.addPlayer sid nm r in
      let '(oks, r2) := addPlayers calls' r1 in
      (ok :: oks, r2)
  end.

(** The seats a fresh room gives to a sequence of callers. *)
Definition seats (calls : list (string * string)) : list GameRoom.PlayerEntry :=
  match calls with
  | [] => []
  | [(s1, n1)] => [GameRoom.mkEntry s1 n1 X]
  | (s1, n1) :: (s2, n2) :: _ => [GameRoom.mkEntry s1 n1 X; GameRoom.mkEntry s2 n2 O]
  end.

(** ** Concrete registries *)

(** A room with its creator A alone: public and waiting. *)
Definition room_A : GameRoom.t :=
  (GameRoom.addPlayer "A" "alice" (GameRoom.new "R1" true "A")).2.

(** The emits among the actions of a handler. *)
Definition emits (acts : list Action) : list (Target * Message) :=
  omap (λ a, match a with Emit to m => Some (to, m) | _ => None end) acts.

(** The lobby after A entered it and created the public room R1. *)
Definition lobby_with_open_room : Server :=
  (run [JoinLobby "A" "alice"; CreateRoom "A" "R1" true "alice"] init).1.

(** The departure of [sid] empties the public room [sid] is bound to. *)
Definition empties_public_room (sid : string) (st : Server) : Prop :=
  ∃ player rid room,
    players st !! sid = Some player
    ∧ bound_room player = Some rid
    ∧ JsMap.get rid (rooms st) = Some room
    ∧ GameRoom.isPublic room = true
    ∧ GameRoom.players (GameRoom.removePlayer sid room) = [].

(** A game on room [rid] that X, played by [a], wins on the top row. *)
Definition top_row_win (a b rid : string) : list Event :=
  [ MakeMove a rid 0; MakeMove b rid 3; MakeMove a rid 1;
    MakeMove b rid 4; MakeMove a rid 2 ].

(** A and B finish a game in R1; A asks for a rematch there and leaves;
    A then creates R2, C joins it and they finish a game.  Nobody has asked
    for a rematch in R2. *)
Definition stale_rematch_trace : list Event :=
  [ JoinLobby "A" "alice"; JoinLobby "B" "bob"; JoinLobby "C" "carol";
    CreateRoom "A" "R1" true "alice"; JoinRoom "B" "R1" "bob" ]
  ++ top_row_win "A" "B" "R1"
  ++ [ RequestRematch "A" "R1"; LeaveRoom "A";
       CreateRoom "A" "R2" false "alice"; JoinRoom "C" "R2" "carol" ]
  ++ top_row_win "A" "C" "R2".

(** ** What the handlers do to a room *)

(** The room ['create-room'] stores: a new room with its creator seated. *)
Inductive room_init : GameRoom.t → Prop :=
| init_create sid rid pub nm :
    room_init (GameRoom.addPlayer sid nm (GameRoom.new rid pub sid)).2.

(** The method calls the handlers make on a stored room, each under the
    guard of its handler: ['join-room'] adds a player to a waiting room
    with a free seat, ['make-move'] stores the room after a successful move,
    ['request-rematch'] resets a finished room of two, ['leave-room'] and
    ['disconnect'] remove a player. *)
Inductive room_step : GameRoom.t → GameRoom.t → Prop :=
| step_join sid nm r :
    length (GameRoom.players r) < 2 → GameRoom.status r = waiting →
    room_step r (GameRoom.addPlayer sid nm r).2
| step_move i sid r :
    (GameRoom.makeMove i sid r).1 = true →
    room_step r (GameRoom.makeMove i sid r).2
| step_rematch r :
    GameRoom.status r = finished → length (GameRoom.players r) = 2 →
    room_step r (GameRoom.reset r)
| step_leave sid r :
    room_step r (GameRoom.removePlayer sid r).

(** The rooms the handlers can produce. *)
Inductive room_reachable : GameRoom.t → Prop :=
| rr_init r : room_init r → room_reachable r
| rr_step r r' : room_reachable r → room_step r r' → room_reachable r'.

(** The number of marks on a board. *)
Definition marks_on (b : list Cell) : nat := length (filter is_Some b).

(** A waiting room is as the constructor left it, with at most one player,
    who holds X. *)
Definition waiting_fresh (r : GameRoom.t) : Prop :=
  GameRoom.status r = waiting →
  GameRoom.board r = empty_board ∧ GameRoom.currentPlayer r = X
  ∧ length (GameRoom.players r) ≤ 1
  ∧ ∀ p, p ∈ GameRoom.players r → GameRoom.symbol p = X.

(** What holds of every room the handlers produce. *)
Record room_ok (r : GameRoom.t) : Prop := mk_room_ok {
  ok_board : length (GameRoom.board r) = 9;
  ok_seats : length (GameRoom.players r) ≤ 2;
  ok_waiting : waiting_fresh r;
  ok_playing : GameRoom.status r = playing →
               checkWinner (GameRoom.board r) = None ∧ GameRoom.moves r < 9;
  ok_finished : GameRoom.status r = finished →
                is_Some (GameRoom.winner r) ∨ GameRoom.moves r = 9;
  ok_winner : GameRoom.winner r = checkWinner (GameRoom.board r);
  ok_one_sided : one_sided (GameRoom.board r);
  ok_moves : GameRoom.moves r = marks_on (GameRoom.board r);
  ok_full : full_started r
}.

(** A and B play R1 until X completes the top row. *)
Definition won_trace : list Event :=
  [ JoinLobby "A" "alice"; JoinLobby "B" "bob";
    CreateRoom "A" "R1" true "alice"; JoinRoom "B" "R1" "bob" ]
  ++ top_row_win "A" "B" "R1".

(** The room R1 after [won_trace]. *)
Definition room_won : GameRoom.t :=
  GameRoom.mk "R1" true "A"
    [GameRoom.mkEntry "A" "alice" X; GameRoom.mkEntry "B" "bob" O]
    [Some X; Some X; Some X; Some O; Some O; None; None; None; None]
    X finished (Some X) 5.

(** ** Turns and seats *)

(** The number of cells of [b] that hold the mark [m]. *)
Definition marks_of (m : Mark) (b : list Cell) : nat :=
  length (filter (λ c, c = Some m) b).

(** The marks of the seats of a room, in seat order. *)
Definition seat_marks (r : GameRoom.t) : list Mark :=
  GameRoom.symbol <$> GameRoom.players r.

(** By how many marks X is ahead of O: while the game is open the player to
    move has not placed the next mark yet; once it is finished
    [currentPlayer] is the player who moved last. *)
Definition x_lead (r : GameRoom.t) : nat :=
  match GameRoom.status r, GameRoom.currentPlayer r with
  | finished, X => 1
  | finished, O => 0
  | _, X => 0
  | _, O => 1
  end.

(** Seats, turn order and winner of a stored room. *)
Record turn_ok (r : GameRoom.t) : Prop := mk_turn_ok {
  turn_seats : seat_marks r = [] ∨ seat_marks r = [X]
               ∨ seat_marks r = [O] ∨ seat_marks r = [X; O];
  turn_lead : marks_of X (GameRoom.board r)
              = marks_of O (GameRoom.board r) + x_lead r;
  turn_winner : ∀ m, GameRoom.winner r = Some m →
                     GameRoom.status r = finished ∧ GameRoom.currentPlayer r = m
}.

(** ** The registry of rooms *)

(** Every key of the registry occurs once, and a room is stored under its
    own id. *)
Definition registry_ok (st : Server) : Prop :=
  NoDup (fst <$> rooms st)
  ∧ ∀ k r, JsMap.get k (rooms st) = Some r → GameRoom.id r = k.

(** The room an event addresses: the one its payload names, or for
    ['leave-room'] and ['disconnect'] the one the caller's record is bound
    to. *)
Definition event_room (e : Event) (st : Server) : option string :=
  match e with
  | JoinLobby _ _ => None
  | CreateRoom _ k _ _ | JoinRoom _ k _ | MakeMove _ k _ | RequestRematch _ k => Some k
  | LeaveRoom sid | Disconnect sid => players st !! sid ≫= bound_room
  end.



(** A won game in R1 for which A has asked for a rematch. *)
Definition rematch_asked_trace : list Event :=
  won_trace ++ [RequestRematch "A" "R1"].

(** ** Characters of strings *)

(** The character [c] occurs in [s]. *)
Definition occurs (c : Ascii.ascii) (s : string) : Prop :=
  In c (String.list_ascii_of_string s).

(** The number of commas in [s]. *)
Fixpoint commas (s : string) : nat :=
  match s with
  | EmptyString => 0
  | String c s' => (if Ascii.eqb c comma then 1 else 0) + commas s'
  end.

(** A digit or a lower-case letter: the digits of a number written in base
    36. *)
Definition base36 (c : Ascii.ascii) : Prop :=
  48 ≤ Ascii.nat_of_ascii c ≤ 57 ∨ 97 ≤ Ascii.nat_of_ascii c ≤ 122.

(** A digit or an upper-case letter. *)
Definition upper_alnum (c : Ascii.ascii) : Prop :=
  48 ≤ Ascii.nat_of_ascii c ≤ 57 ∨ 65 ≤ Ascii.nat_of_ascii c ≤ 90.

(** The header fields the middleware sets on a response. *)
Definition header_fields (out : list Reply) : list string :=
  omap (λ a, match a with SetHeader f _ => Some f | _ => None end) out.

(** ** A drawn game *)

(** A and B fill the board of R1 without either completing a line. *)
Definition draw_trace : list Event :=
  [ JoinLobby "A" "alice"; JoinLobby "B" "bob";
    CreateRoom "A" "R1" true "alice"; JoinRoom "B" "R1" "bob";
    MakeMove "A" "R1" 0; MakeMove "B" "R1" 1; MakeMove "A" "R1" 2;
    MakeMove "B" "R1" 4; MakeMove "A" "R1" 3; MakeMove "B" "R1" 5;
    MakeMove "A" "R1" 7; MakeMove "B" "R1" 6; MakeMove "A" "R1" 8 ].

(** The room R1 after [draw_trace]. *)
Definition room_drawn : GameRoom.t :=
  GameRoom.mk "R1" true "A"
    [GameRoom.mkEntry "A" "alice" X; GameRoom.mkEntry "B" "bob" O]
    [Some X; Some O; Some X; Some X; Some O; Some O; Some O; Some X; Some X]
    X finished None 9.

(** * Properties *)

(** ** checkWinner *)

Lemma pattern_mark_Some b p m : pattern_mark b p = Some m ↔ occupies b m p.
Proof.
  destruct p as [[i j] k]. unfold pattern_mark, occupies. simpl.
  destruct (b !! i) as [[m0|]|] eqn:Hi.
  - destruct (bool_decide (b !! j = Some (Some m0))) eqn:Hj;
      destruct (bool_decide (b !! k = Some (Some m0))) eqn:Hk; simpl;
      try apply bool_decide_eq_true in Hj; try apply bool_decide_eq_true in Hk;
      try apply bool_decide_eq_false in Hj; try apply bool_decide_eq_false in Hk;
      split; try (intros [= <-]; done); try (intros ([= <-] & ? & ?); done).
  - split; [done | intros ([=] & _)].
  - split; [done | intros ([=] & _)].
Qed.

Lemma pattern_mark_None b p : pattern_mark b p = None ↔ ∀ m, ¬ occupies b m p.
Proof.
  split.
  - intros H m Ho. apply pattern_mark_Some in Ho. congruence.
  - intros H. destruct (pattern_mark b p) as [m|] eqn:E; [|done].
    apply pattern_mark_Some in E. by destruct (H m).
Qed.

Lemma scan_patterns_Some b ps m :
  scan_patterns b ps = Some m ↔ ∃ p, first_full b ps m p.
Proof.
  induction ps as [|q ps IH]; simpl.
  - split; [done|]. intros (p & l1 & l2 & E & _). by destruct l1.
  - destruct (pattern_mark b q) as [m0|] eqn:Hq.
    + apply pattern_mark_Some in Hq. split.
      * intros [= <-]. exists q, [], ps. split_and!; [done..|]. intros ?? Hin. inversion Hin.
      * intros (p & l1 & l2 & E & Ho & Hfirst). destruct l1 as [|q' l1]; simpl in E.
        -- injection E as <- <-. f_equal. destruct Hq as [Hq _], Ho as [Ho _]. congruence.
        -- injection E as <- ->. destruct (Hfirst q m0); [left | done].
    + rewrite IH. pose proof (proj1 (pattern_mark_None b q) Hq) as Hn. split.
      * intros (p & l1 & l2 & -> & Ho & Hfirst). exists p, (q :: l1), l2.
        split_and!; [done..|]. intros q' m' [->|Hin]%elem_of_cons; eauto.
      * intros (p & l1 & l2 & E & Ho & Hfirst). destruct l1 as [|q' l1]; simpl in E.
        -- injection E as <- <-. by destruct (Hn m).
        -- injection E as <- ->. exists p, l1, l2. split_and!; [done..|].
           intros q' m' Hin. apply Hfirst. by right.
Qed.

Lemma scan_patterns_None b ps :
  scan_patterns b ps = None ↔ ∀ p m, p ∈ ps → ¬ occupies b m p.
Proof.
  induction ps as [|q ps IH]; simpl.
  - split; [|done]. intros _ p m Hin. inversion Hin.
  - destruct (pattern_mark b q) as [m0|] eqn:Hq.
    + split; [done|]. intros H. apply pattern_mark_Some in Hq.
      destruct (H q m0); [left | done].
    + rewrite IH. pose proof (proj1 (pattern_mark_None b q) Hq) as Hn. split.
      * intros H p m [->|Hin]%elem_of_cons; eauto.
      * intros H p m Hin. apply H. by right.
Qed.

Lemma first_full_elem b ps m p : first_full b ps m p → p ∈ ps ∧ occupies b m p.
Proof.
  intros (l1 & l2 & -> & Ho & _). split; [|done].
  apply elem_of_app. right. left.
Qed.

Lemma checkWinner_sound b m :
  checkWinner b = Some m → ∃ p, p ∈ winPatterns ∧ occupies b m p.
Proof.
  intros [p Hp]%scan_patterns_Some. exists p. by apply first_full_elem in Hp.
Qed.

Lemma checkWinner_None b :
  checkWinner b = None ↔ ∀ p m, p ∈ winPatterns → ¬ occupies b m p.
Proof. apply scan_patterns_None. Qed.

Lemma checkWinner_one_sided b m :
  one_sided b →
  (checkWinner b = Some m ↔ ∃ p, p ∈ winPatterns ∧ occupies b m p).
Proof.
  intros Hone. split; [apply checkWinner_sound|].
  intros (p & Hin & Ho). destruct (checkWinner b) as [m'|] eqn:E.
  - apply checkWinner_sound in E as (q & Hq & Hoq). f_equal. eauto.
  - destruct (proj1 (checkWinner_None b) E p m Hin Ho).
Qed.

(** C2 (as amended).  The loop runs over exactly the eight lines of the
    grid, three rows, three columns and two diagonals, in that order.  On
    every board [checkWinner] returns the mark of the first line, in that
    order, that one mark occupies fully; a mark it returns occupies a line;
    it returns [null] exactly when no line is fully occupied; and on a board
    where only one mark has a full line it returns a mark if and only if
    that mark occupies all three cells of some line. *)
Theorem checkWinner_first_full_line (b : list Cell) :
  winPatterns = rows ++ columns ++ diagonals
  ∧ length winPatterns = 8
  ∧ (∀ m, checkWinner b = Some m ↔ ∃ p, first_full b winPatterns m p)
  ∧ (∀ m, checkWinner b = Some m → ∃ p, p ∈ winPatterns ∧ occupies b m p)
  ∧ (checkWinner b = None ↔ ∀ p m, p ∈ winPatterns → ¬ occupies b m p)
  ∧ (one_sided b →
     ∀ m, checkWinner b = Some m ↔ ∃ p, p ∈ winPatterns ∧ occupies b m p).
Proof.
  split_and!; [reflexivity | reflexivity | | | |].
  - intros m. apply scan_patterns_Some.
  - apply checkWinner_sound.
  - apply checkWinner_None.
  - intros Hone m. by apply checkWinner_one_sided.
Qed.

(** C2 fails as stated: on [two_lines] the mark O occupies all three cells
    of the middle row, one of the eight triples, and [checkWinner] returns
    X, not O; so "returns a mark if and only if that mark occupies some
    triple" is false for O on this board. *)
Lemma checkWinner_two_lines_returns_X :
  (3, 4, 5) ∈ winPatterns
  ∧ occupies two_lines O (3, 4, 5)
  ∧ checkWinner two_lines = Some X
  ∧ ¬ (checkWinner two_lines = Some O ↔
         ∃ p, p ∈ winPatterns ∧ occupies two_lines O p).
Proof.
  assert (Hin : (3, 4, 5) ∈ winPatterns) by (right; left).
  assert (Ho : occupies two_lines O (3, 4, 5)) by (by repeat split).
  split_and!; [done | done | reflexivity |].
  intros [_ H]. discriminate H. by exists (3, 4, 5).
Qed.

(** ** makeMove *)

Lemma find_first_entry sid ps p :
  find (λ q, String.eqb (GameRoom.socketId q) sid) ps = Some p ↔ first_entry sid ps p.
Proof.
  induction ps as [|q ps IH]; simpl.
  - split; [done|]. intros (l1 & l2 & E & _). by destruct l1.
  - destruct (String.eqb_spec (GameRoom.socketId q) sid) as [Heq|Hne].
    + split.
      * intros [= <-]. exists [], ps. split_and!; [done..|]. intros ? Hin. inversion Hin.
      * intros (l1 & l2 & E & Hp & Hfirst). destruct l1 as [|q' l1]; simpl in E.
        -- by injection E as <- <-.
        -- injection E as <- ->. destruct (Hfirst q); [left | done].
    + rewrite IH. split.
      * intros (l1 & l2 & -> & Hp & Hfirst). exists (q :: l1), l2.
        split_and!; [done..|]. by intros q' [->|Hin]%elem_of_cons; eauto.
      * intros (l1 & l2 & E & Hp & Hfirst). destruct l1 as [|q' l1]; simpl in E.
        -- injection E as <- <-. done.
        -- injection E as <- ->. exists l1, l2. split_and!; [done..|].
           intros q' Hin. apply Hfirst. by right.
Qed.

Lemma first_entry_some sid ps p :
  first_entry sid ps p → some_entry sid (GameRoom.symbol p) ps.
Proof.
  intros (l1 & l2 & -> & Hp & _). exists p. split_and!; [|done..].
  apply elem_of_app. right. left.
Qed.

(** With pairwise distinct connection ids, the entry for an id is unique. *)
Lemma some_entry_first sid m ps :
  NoDup (GameRoom.socketId <$> ps) →
  some_entry sid m ps → ∃ p, first_entry sid ps p ∧ GameRoom.symbol p = m.
Proof.
  intros Hnd (p & Hin & Hsid & Hm). exists p. split; [|done].
  apply list_elem_of_split in Hin as (l1 & l2 & ->).
  exists l1, l2. split_and!; [done..|].
  intros q Hq Heq. rewrite fmap_app, fmap_cons in Hnd.
  apply NoDup_app in Hnd as (_ & Hdis & _).
  apply (Hdis (GameRoom.socketId q)).
  - by apply list_elem_of_fmap_2.
  - rewrite Heq, <- Hsid. left.
Qed.

Lemma at_index_Some_None b i :
  at_index b i = Some None ↔ (0 ≤ i)%Z ∧ b !! Z.to_nat i = Some None.
Proof.
  unfold at_index. destruct (Z.ltb_spec i 0); split.
  - done.
  - intros [? _]. lia.
  - intros H'. split; [lia | done].
  - by intros [_ ?].
Qed.

Lemma at_index_range b i c :
  length b = 9 → at_index b i = Some c → (0 ≤ i < 9)%Z.
Proof.
  unfold at_index. intros Hlen. destruct (Z.ltb_spec i 0); [done|].
  intros Hl%lookup_lt_Some. lia.
Qed.

Lemma makeMove_true index sid r :
  (GameRoom.makeMove index sid r).1 = true ↔
  GameRoom.status r = playing
  ∧ at_index (GameRoom.board r) index = Some None
  ∧ ∃ p, first_entry sid (GameRoom.players r) p
         ∧ GameRoom.symbol p = GameRoom.currentPlayer r.
Proof.
  unfold GameRoom.makeMove.
  case_bool_decide as Hst.
  { simpl. split; [done|]. intros (? & _). done. }
  destruct (at_index (GameRoom.board r) index) as [[m|]|] eqn:Hat;
    try (simpl; split; [done | intros (_ & [=] & _)]).
  destruct (find _ (GameRoom.players r)) as [player|] eqn:Hfind.
  - apply find_first_entry in Hfind.
    case_bool_decide as Hsym.
    + simpl. split; [done|]. intros (_ & _ & p & Hp & Hs).
      apply find_first_entry in Hfind, Hp. congruence.
    + destruct (bool_decide _ || bool_decide _); simpl; (split; [|done]);
        intros _; split_and!; eauto.
  - simpl. split; [done|]. intros (_ & _ & p & Hp%find_first_entry & _). congruence.
Qed.

Lemma makeMove_false index sid r :
  (GameRoom.makeMove index sid r).1 = false → (GameRoom.makeMove index sid r).2 = r.
Proof.
  unfold GameRoom.makeMove.
  repeat (case_bool_decide || case_match); simpl; congruence.
Qed.

(** C1 (as amended).  On a room with a 9-cell board, [makeMove] returns
    success if and only if the status is playing, the index denotes an empty
    cell within the 9-cell range, and the first player entry whose connection
    id matches exists and has the mark of [currentPlayer]; a failing call
    leaves the whole room (board, move count, turn, status and winner
    included) unchanged, and every index outside 0..8 fails.  When the
    connection ids of the entries are pairwise distinct, "the first matching
    entry" is the same as "some matching entry". *)
Theorem makeMove_legality (r : GameRoom.t) (index : Z) (sid : string) :
  length (GameRoom.board r) = 9 →
  ((GameRoom.makeMove index sid r).1 = true ↔
     GameRoom.status r = playing
     ∧ ((0 ≤ index < 9)%Z ∧ GameRoom.board r !! Z.to_nat index = Some None)
     ∧ ∃ p, first_entry sid (GameRoom.players r) p
            ∧ GameRoom.symbol p = GameRoom.currentPlayer r)
  ∧ ((GameRoom.makeMove index sid r).1 = false →
     (GameRoom.makeMove index sid r).2 = r)
  ∧ (¬ (0 ≤ index < 9)%Z → GameRoom.makeMove index sid r = (false, r))
  ∧ (NoDup (GameRoom.socketId <$> GameRoom.players r) →
     ((GameRoom.makeMove index sid r).1 = true ↔
        GameRoom.status r = playing
        ∧ ((0 ≤ index < 9)%Z ∧ GameRoom.board r !! Z.to_nat index = Some None)
        ∧ some_entry sid (GameRoom.currentPlayer r) (GameRoom.players r))).
Proof.
  intros Hlen.
  assert (Hcell : at_index (GameRoom.board r) index = Some None ↔
                  (0 ≤ index < 9)%Z
                  ∧ GameRoom.board r !! Z.to_nat index = Some None).
  { split.
    - intros H. split; [by eapply at_index_range | by apply at_index_Some_None in H as [_ ?]].
    - intros [[? _] ?]. by apply at_index_Some_None. }
  split_and!.
  - rewrite makeMove_true, Hcell. done.
  - apply makeMove_false.
  - intros Hout.
    destruct (GameRoom.makeMove index sid r) as [ok r'] eqn:E.
    assert (ok = false) as ->.
    { destruct ok; [|done]. exfalso. apply Hout.
      pose proof (proj1 (makeMove_true index sid r)) as Ht. rewrite E in Ht.
      destruct (Ht eq_refl) as (_ & Hc%Hcell & _). tauto. }
    f_equal. pose proof (makeMove_false index sid r) as Hf. rewrite E in Hf. by apply Hf.
  - intros Hnd. rewrite makeMove_true, Hcell. split.
    + intros (? & ? & p & Hp & <-). split; [done|]. split; [done|].
      by eapply first_entry_some.
    + intros (? & ? & Hs). split; [done|]. split; [done|].
      by apply some_entry_first.
Qed.

Lemma makeMove_legality_witness :
  length (GameRoom.board room_AB) = 9 ∧ (GameRoom.makeMove 4 "A" room_AB).1 = true.
Proof.
  split; [reflexivity|].
  apply (proj1 (makeMove_legality room_AB 4 "A" eq_refl)).
  split_and!; [reflexivity | lia | lia | reflexivity |].
  exists (GameRoom.mkEntry "A" "alice" X). split; [|reflexivity].
  exists [], [GameRoom.mkEntry "B" "bob" O]. split_and!; [reflexivity..|].
  intros q Hq. inversion Hq.
Defined.

(** C1 fails as stated: in [room_AA] the status is playing, cell 1 is empty
    and within range, and an entry with A's connection id carries the mark
    whose turn it is (O); yet A's move is rejected, because the first entry
    with A's id carries X. *)
Lemma makeMove_second_seat_rejected :
  GameRoom.players room_AA
  = [GameRoom.mkEntry "A" "alice" X; GameRoom.mkEntry "A" "alice" O]
  ∧ GameRoom.currentPlayer room_AA = O
  ∧ GameRoom.status room_AA = playing
  ∧ (0 ≤ 1 < 9)%Z
  ∧ at_index (GameRoom.board room_AA) 1 = Some None
  ∧ some_entry "A" (GameRoom.currentPlayer room_AA) (GameRoom.players room_AA)
  ∧ (GameRoom.makeMove 1 "A" room_AA).1 = false
  ∧ ¬ ((GameRoom.makeMove 1 "A" room_AA).1 = true ↔
         GameRoom.status room_AA = playing
         ∧ ((0 ≤ 1 < 9)%Z ∧ at_index (GameRoom.board room_AA) 1 = Some None)
         ∧ some_entry "A" (GameRoom.currentPlayer room_AA) (GameRoom.players room_AA)).
Proof.
  assert (Hsome : some_entry "A" (GameRoom.currentPlayer room_AA)
                             (GameRoom.players room_AA)).
  { exists (GameRoom.mkEntry "A" "alice" O). split_and!; [|reflexivity..].
    right. left. }
  split_and!; [reflexivity | reflexivity | reflexivity | lia | lia
               | reflexivity | done | reflexivity |].
  intros [_ H]. discriminate H. split_and!; [reflexivity | lia | lia | reflexivity | done].
Qed.

(** ** addPlayer *)

Lemma addPlayer_full sid nm r :
  2 ≤ length (GameRoom.players r) → GameRoom.addPlayer sid nm r = (false, r).
Proof. intros H. unfold GameRoom.addPlayer. by rewrite bool_decide_eq_true_2. Qed.

Lemma addPlayer_first sid nm r :
  length (GameRoom.players r) = 0 →
  GameRoom.addPlayer sid nm r
  = (true, GameRoom.with_players [GameRoom.mkEntry sid nm X] r).
Proof.
  intros H. unfold GameRoom.addPlayer.
  destruct (GameRoom.players r) eqn:E; simpl in H; try lia.
  reflexivity.
Qed.

Lemma addPlayer_second sid nm r :
  length (GameRoom.players r) = 1 →
  GameRoom.addPlayer sid nm r
  = (true, GameRoom.with_status playing
             (GameRoom.with_players
                (GameRoom.players r ++ [GameRoom.mkEntry sid nm O]) r)).
Proof.
  intros H. unfold GameRoom.addPlayer.
  destruct (GameRoom.players r) as [|p [|q l]] eqn:E; simpl in H; try lia.
  reflexivity.
Qed.

Lemma addPlayers_full calls r :
  2 ≤ length (GameRoom.players r) →
  addPlayers calls r = (replicate (length calls) false, r).
Proof.
  intros H. induction calls as [|[sid nm] calls IH]; simpl; [done|].
  by rewrite addPlayer_full, IH.
Qed.

Lemma late_calls_fail n k :
  2 ≤ k → ((λ i, bool_decide (i < 2)) <$> seq k n) = replicate n false.
Proof.
  intros Hk. induction n as [|n IH] in k, Hk |- *; simpl; [done|].
  rewrite bool_decide_eq_false_2 by lia. f_equal. apply IH. lia.
Qed.

Lemma addPlayers_new calls rid pub c :
  let out := addPlayers calls (GameRoom.new rid pub c) in
  out.1 = ((λ i, bool_decide (i < 2)) <$> seq 0 (length calls))
  ∧ GameRoom.players out.2 = seats calls
  ∧ GameRoom.status out.2 = (if bool_decide (2 ≤ length calls) then playing else waiting).
Proof.
  destruct calls as [|[s1 n1] [|[s2 n2] calls]]; try (by vm_compute).
  simpl. rewrite addPlayers_full by (simpl; lia). simpl. split_and!; [|done..].
  do 2 f_equal. symmetry. by apply late_calls_fail.
Qed.

(** C6.  For every room: a call made when two players are present returns
    [false] and leaves the room, its player list included, unchanged; a call
    on an empty list succeeds and seats the caller with mark X, a call on a
    list of length one succeeds and appends the caller with mark O, whatever
    happened to the room before; a successful call sets the status to
    playing exactly when the list thereby reaches length two and leaves it
    as it was otherwise.  Over sequences of calls: once two players are
    present every further call fails and changes nothing, and on a fresh
    room the first two calls succeed, the later ones fail, and the seats are
    those of the first two callers. *)
Theorem addPlayer_capacity_and_marks (r : GameRoom.t) (sid nm : string) :
  (length (GameRoom.players r) = 2 → GameRoom.addPlayer sid nm r = (false, r))
  ∧ (length (GameRoom.players r) = 0 →
     GameRoom.addPlayer sid nm r
     = (true, GameRoom.with_players [GameRoom.mkEntry sid nm X] r))
  ∧ (length (GameRoom.players r) = 1 →
     GameRoom.addPlayer sid nm r
     = (true, GameRoom.with_status playing
                (GameRoom.with_players
                   (GameRoom.players r ++ [GameRoom.mkEntry sid nm O]) r)))
  ∧ ((GameRoom.addPlayer sid nm r).1 = true →
     length (GameRoom.players r) < 2
     ∧ length (GameRoom.players (GameRoom.addPlayer sid nm r).2)
       = S (length (GameRoom.players r))
     ∧ GameRoom.status (GameRoom.addPlayer sid nm r).2
       = (if bool_decide (length (GameRoom.players (GameRoom.addPlayer sid nm r).2) = 2)
          then playing else GameRoom.status r))
  ∧ ((GameRoom.addPlayer sid nm r).1 = false →
     2 ≤ length (GameRoom.players r) ∧ (GameRoom.addPlayer sid nm r).2 = r)
  ∧ (∀ calls, length (GameRoom.players r) = 2 →
       addPlayers calls r = (replicate (length calls) false, r))
  ∧ (∀ calls rid pub c,
       (addPlayers calls (GameRoom.new rid pub c)).1
       = ((λ i, bool_decide (i < 2)) <$> seq 0 (length calls))
       ∧ GameRoom.players (addPlayers calls (GameRoom.new rid pub c)).2 = seats calls
       ∧ GameRoom.status (addPlayers calls (GameRoom.new rid pub c)).2
         = (if bool_decide (2 ≤ length calls) then playing else waiting)).
Proof.
  split_and!.
  - intros H. apply addPlayer_full. lia.
  - apply addPlayer_first.
  - apply addPlayer_second.
  - destruct (decide (2 ≤ length (GameRoom.players r))) as [Hfull|Hfree].
    { by rewrite addPlayer_full. }
    intros _. destruct (GameRoom.players r) as [|p [|q l]] eqn:E.
    + rewrite addPlayer_first by by rewrite E. simpl.
      split_and!; [lia | done | done].
    + rewrite addPlayer_second by by rewrite E. simpl. rewrite E. simpl.
      split_and!; [lia | done | done].
    + simpl in Hfree. lia.
  - destruct (decide (2 ≤ length (GameRoom.players r))) as [Hfull|Hfree].
    { by rewrite addPlayer_full. }
    unfold GameRoom.addPlayer. by rewrite bool_decide_eq_false_2.
  - intros calls H. apply addPlayers_full. lia.
  - intros calls rid pub c. apply addPlayers_new.
Qed.

(** ** removePlayer and reset *)

Lemma removePlayer_players sid r :
  GameRoom.players (GameRoom.removePlayer sid r)
  = filter (λ p, GameRoom.socketId p ≠ sid) (GameRoom.players r).
Proof.
  unfold GameRoom.removePlayer. simpl. by case_bool_decide.
Qed.

Lemma removePlayer_some_left sid r :
  filter (λ p, GameRoom.socketId p ≠ sid) (GameRoom.players r) ≠ [] →
  GameRoom.removePlayer sid r
  = GameRoom.with_players
      (filter (λ p, GameRoom.socketId p ≠ sid) (GameRoom.players r)) r.
Proof.
  intros H. unfold GameRoom.removePlayer. simpl.
  rewrite bool_decide_eq_false_2; [done|].
  by intros ?%nil_length_inv.
Qed.

Lemma removePlayer_none_left sid r :
  filter (λ p, GameRoom.socketId p ≠ sid) (GameRoom.players r) = [] →
  GameRoom.removePlayer sid r
  = GameRoom.mk (GameRoom.id r) (GameRoom.isPublic r) (GameRoom.creatorId r)
                [] empty_board X waiting None 0.
Proof.
  intros H. unfold GameRoom.removePlayer. simpl. rewrite H. reflexivity.
Qed.

(** C7 (as amended).  [removePlayer] removes every entry whose connection
    id matches, and nothing else of the list.  When an entry remains, as
    when one of two players with different connection ids is removed, board,
    status, move count, current player and winner are unchanged.  When no
    entry remains, which includes a two-player room whose two entries both
    carry the removed id, the status is waiting and board, turn, winner and
    move count are reset. *)
Theorem removePlayer_frame (r : GameRoom.t) (sid : string) :
  GameRoom.players (GameRoom.removePlayer sid r)
  = filter (λ p, GameRoom.socketId p ≠ sid) (GameRoom.players r)
  ∧ GameRoom.id (GameRoom.removePlayer sid r) = GameRoom.id r
  ∧ GameRoom.isPublic (GameRoom.removePlayer sid r) = GameRoom.isPublic r
  ∧ (GameRoom.players (GameRoom.removePlayer sid r) ≠ [] →
     GameRoom.board (GameRoom.removePlayer sid r) = GameRoom.board r
     ∧ GameRoom.status (GameRoom.removePlayer sid r) = GameRoom.status r
     ∧ GameRoom.moves (GameRoom.removePlayer sid r) = GameRoom.moves r
     ∧ GameRoom.currentPlayer (GameRoom.removePlayer sid r) = GameRoom.currentPlayer r
     ∧ GameRoom.winner (GameRoom.removePlayer sid r) = GameRoom.winner r)
  ∧ (GameRoom.players (GameRoom.removePlayer sid r) = [] →
     GameRoom.status (GameRoom.removePlayer sid r) = waiting
     ∧ GameRoom.board (GameRoom.removePlayer sid r) = empty_board
     ∧ GameRoom.currentPlayer (GameRoom.removePlayer sid r) = X
     ∧ GameRoom.winner (GameRoom.removePlayer sid r) = None
     ∧ GameRoom.moves (GameRoom.removePlayer sid r) = 0)
  ∧ (∀ p q, GameRoom.players r = [p; q] →
            GameRoom.socketId p = sid → GameRoom.socketId q ≠ sid →
            GameRoom.removePlayer sid r = GameRoom.with_players [q] r)
  ∧ (∀ p q, GameRoom.players r = [p; q] →
            GameRoom.socketId p ≠ sid → GameRoom.socketId q = sid →
            GameRoom.removePlayer sid r = GameRoom.with_players [p] r)
  ∧ (∀ p q, GameRoom.players r = [p; q] →
            GameRoom.socketId p = sid → GameRoom.socketId q = sid →
            GameRoom.players (GameRoom.removePlayer sid r) = []).
Proof.
  split; [apply removePlayer_players|].
  rewrite removePlayer_players.
  destruct (filter (λ p, GameRoom.socketId p ≠ sid) (GameRoom.players r))
    as [|e l] eqn:E.
  - rewrite (removePlayer_none_left sid r E). simpl.
    split_and!; try done.
    + intros p q Hpq Hp Hq. rewrite Hpq in E.
      rewrite filter_cons_False, filter_cons_True in E by (simpl; tauto). done.
    + intros p q Hpq Hp Hq. rewrite Hpq in E.
      rewrite filter_cons_True in E by done. done.
  - rewrite removePlayer_some_left by by rewrite E. simpl.
    split_and!; try done.
    + intros p q Hpq Hp Hq. rewrite Hpq.
      rewrite filter_cons_False, filter_cons_True by (simpl; tauto). done.
    + intros p q Hpq Hp Hq. rewrite Hpq.
      rewrite filter_cons_True, filter_cons_False by (simpl; tauto). done.
    + intros p q Hpq Hp Hq. rewrite Hpq in E.
      rewrite !filter_cons_False in E by (simpl; tauto). done.
Qed.

(** C7 fails as stated: [room_AA] has two players, and removing A removes
    both entries, not one, and resets board, status and move count. *)
Lemma removePlayer_shared_id_resets :
  length (GameRoom.players room_AA) = 2
  ∧ GameRoom.players (GameRoom.removePlayer "A" room_AA) = []
  ∧ GameRoom.board room_AA !! 0 = Some (Some X)
  ∧ GameRoom.board (GameRoom.removePlayer "A" room_AA) !! 0 = Some None
  ∧ GameRoom.status room_AA = playing
  ∧ GameRoom.status (GameRoom.removePlayer "A" room_AA) = waiting
  ∧ GameRoom.moves room_AA = 1
  ∧ GameRoom.moves (GameRoom.removePlayer "A" room_AA) = 0
  ∧ GameRoom.currentPlayer room_AA = O
  ∧ GameRoom.currentPlayer (GameRoom.removePlayer "A" room_AA) = X.
Proof. by vm_compute. Qed.

(** ** The room invariant *)

Lemma RoomInv_new rid pub c : RoomInv (GameRoom.new rid pub c).
Proof. split; [intros [=] | done]. Qed.

Lemma RoomInv_addPlayer r sid nm :
  RoomInv r → RoomInv (GameRoom.addPlayer sid nm r).2.
Proof.
  intros [Hfull Hshort].
  destruct (decide (2 ≤ length (GameRoom.players r))) as [H2|H2].
  { by rewrite addPlayer_full. }
  destruct (GameRoom.players r) as [|p [|q l]] eqn:E; [| |simpl in H2; lia].
  - rewrite addPlayer_first by by rewrite E.
    split; [intros [=]|]. intros _. simpl. apply Hshort. rewrite E. simpl. lia.
  - rewrite addPlayer_second by by rewrite E.
    split; [by left|]. intros H. simpl in H. rewrite E in H. simpl in H. lia.
Qed.

Lemma makeMove_players i sid r :
  GameRoom.players (GameRoom.makeMove i sid r).2 = GameRoom.players r.
Proof.
  unfold GameRoom.makeMove. repeat (case_bool_decide || case_match); done.
Qed.

Lemma makeMove_status i sid r :
  (GameRoom.makeMove i sid r).1 = true →
  GameRoom.status r = playing
  ∧ (GameRoom.status (GameRoom.makeMove i sid r).2 = playing
     ∨ GameRoom.status (GameRoom.makeMove i sid r).2 = finished).
Proof.
  intros H. pose proof (proj1 (makeMove_true i sid r) H) as (Hst & _).
  split; [done|]. revert H. unfold GameRoom.makeMove.
  repeat (case_bool_decide || case_match); simpl; try done; eauto.
Qed.

Lemma RoomInv_makeMove r i sid :
  RoomInv r → RoomInv (GameRoom.makeMove i sid r).2.
Proof.
  intros [Hfull Hshort].
  destruct (GameRoom.makeMove i sid r).1 eqn:Hok.
  - apply makeMove_status in Hok as [Hst Hst'].
    split; intros Hlen; rewrite makeMove_players in Hlen; [done|].
    specialize (Hshort Hlen). congruence.
  - by rewrite makeMove_false.
Qed.

Lemma RoomInv_reset r : RoomInv (GameRoom.reset r).
Proof.
  split; intros H; simpl in *.
  - rewrite bool_decide_eq_true_2 by done. by left.
  - rewrite bool_decide_eq_false_2 by lia. done.
Qed.

Lemma removePlayer_full_started r sid :
  length (GameRoom.players r) ≤ 2 →
  full_started r → full_started (GameRoom.removePlayer sid r).
Proof.
  intros Hle Hfull Hlen. rewrite removePlayer_players in Hlen.
  assert (Hsame : filter (λ p, GameRoom.socketId p ≠ sid) (GameRoom.players r)
                  = GameRoom.players r).
  { destruct (GameRoom.players r) as [|p [|q [|? ?]]]; simpl in Hle; try lia;
      revert Hlen; rewrite ?filter_cons, ?filter_nil;
      repeat case_decide; simpl; intros; done || lia. }
  rewrite Hsame in Hlen.
  rewrite removePlayer_some_left, Hsame.
  - simpl. by apply Hfull.
  - intros E. rewrite Hsame in E. by rewrite E in Hlen.
Qed.

Lemma removePlayer_RoomInv_when r sid :
  RoomInv r →
  GameRoom.players (GameRoom.removePlayer sid r) = []
  ∨ GameRoom.players (GameRoom.removePlayer sid r) = GameRoom.players r →
  RoomInv (GameRoom.removePlayer sid r).
Proof.
  intros Hinv. rewrite removePlayer_players. intros [Hnil|Hsame].
  - rewrite removePlayer_none_left by done. split; [intros [=] | done].
  - destruct (GameRoom.players r) as [|p l] eqn:E.
    + rewrite removePlayer_none_left by by rewrite E. split; [intros [=] | done].
    + rewrite removePlayer_some_left by by rewrite E, Hsame.
      rewrite E, Hsame. destruct Hinv as [Hfull Hshort].
      split; intros H; simpl in *; [apply Hfull | apply Hshort]; by rewrite E.
Qed.

Lemma removePlayer_one_of_two r sid :
  RoomInv r → length (GameRoom.players r) = 2 →
  length (GameRoom.players (GameRoom.removePlayer sid r)) = 1 →
  ¬ RoomInv (GameRoom.removePlayer sid r).
Proof.
  intros [Hfull _] H2 H1 [_ Hshort].
  specialize (Hshort ltac:(lia)). rewrite removePlayer_players in H1.
  rewrite removePlayer_some_left in Hshort by (intros E; by rewrite E in H1).
  simpl in Hshort. destruct (Hfull H2); congruence.
Qed.

(** C4 (as amended).  The conjunction [(players.length == 2 implies status
    is playing or finished)] and [(players.length < 2 implies status ==
    waiting)] holds of a freshly created room and is preserved by
    [addPlayer] and [makeMove]; [reset] establishes it.  [removePlayer]
    preserves the first conjunct (on a room of at most two players), and
    the whole conjunction when it empties the room or removes nobody; when it
    removes one of two players the status stays playing or finished with
    one player left, and the second conjunct no longer holds. *)
Theorem RoomInv_operations :
  (∀ rid pub c, RoomInv (GameRoom.new rid pub c))
  ∧ (∀ r sid nm, RoomInv r → RoomInv (GameRoom.addPlayer sid nm r).2)
  ∧ (∀ r i sid, RoomInv r → RoomInv (GameRoom.makeMove i sid r).2)
  ∧ (∀ r, RoomInv (GameRoom.reset r))
  ∧ (∀ r sid, length (GameRoom.players r) ≤ 2 →
              full_started r → full_started (GameRoom.removePlayer sid r))
  ∧ (∀ r sid, RoomInv r →
              GameRoom.players (GameRoom.removePlayer sid r) = []
              ∨ GameRoom.players (GameRoom.removePlayer sid r) = GameRoom.players r →
              RoomInv (GameRoom.removePlayer sid r))
  ∧ (∀ r sid, RoomInv r → length (GameRoom.players r) = 2 →
              length (GameRoom.players (GameRoom.removePlayer sid r)) = 1 →
              ¬ RoomInv (GameRoom.removePlayer sid r)).
Proof.
  split_and!.
  - apply RoomInv_new.
  - apply RoomInv_addPlayer.
  - apply RoomInv_makeMove.
  - apply RoomInv_reset.
  - apply removePlayer_full_started.
  - apply removePlayer_RoomInv_when.
  - apply removePlayer_one_of_two.
Qed.

(** C4 fails as stated: [room_AB] satisfies the conjunction, and after
    [removePlayer] of A it has one player and status playing, so
    [removePlayer] does not preserve it. *)
Lemma removePlayer_breaks_RoomInv :
  RoomInv room_AB
  ∧ length (GameRoom.players (GameRoom.removePlayer "A" room_AB)) = 1
  ∧ GameRoom.status (GameRoom.removePlayer "A" room_AB) = playing
  ∧ ¬ RoomInv (GameRoom.removePlayer "A" room_AB)
  ∧ ¬ (∀ r sid, RoomInv r → RoomInv (GameRoom.removePlayer sid r)).
Proof.
  assert (Hinv : RoomInv room_AB).
  { split; [by left | vm_compute; lia]. }
  assert (Hbroken : ¬ RoomInv (GameRoom.removePlayer "A" room_AB)).
  { intros [_ Hshort]. specialize (Hshort ltac:(vm_compute; lia)). discriminate. }
  split_and!; [done | reflexivity | reflexivity | done |].
  intros H. by apply Hbroken, H.
Qed.

(** ** The room-state snapshot *)

Lemma snapshot_isDraw room :
  isDraw (snapshot room) = true ↔
    GameRoom.moves room = 9 ∧ GameRoom.winner room = None.
Proof.
  unfold snapshot. simpl.
  rewrite andb_true_iff, negb_true_iff, bool_decide_eq_true, bool_decide_eq_false.
  by rewrite <- eq_None_not_Some.
Qed.

(** The [isDraw] field of a snapshot, read off the room it is taken of:
    it is true if and only if the move count equals 9 and the winner is
    [null], and false whenever a winner is set; the snapshot carries the
    room's winner unchanged. *)
Theorem isDraw_iff_nine_moves_no_winner (room : GameRoom.t) :
  (isDraw (snapshot room) = true ↔
     GameRoom.moves room = 9 ∧ GameRoom.winner room = None)
  ∧ (GameRoom.winner room ≠ None → isDraw (snapshot room) = false)
  ∧ state_winner (snapshot room) = GameRoom.winner room
  ∧ (∀ st rid, JsMap.get rid (rooms st) = Some room →
               updateRoomState rid st = [Emit (ToRoom rid) (game_state (snapshot room))]).
Proof.
  split_and!.
  - apply snapshot_isDraw.
  - intros Hw. apply not_true_is_false. by intros [_ ?]%snapshot_isDraw.
  - done.
  - intros st rid Hget. unfold updateRoomState. by rewrite Hget.
Qed.

(** ** The lobby listing *)

Lemma getPublicRooms_filter rs :
  getPublicRooms rs
  = getPublicInfo <$> filter (λ room, GameRoom.isPublic room = true
                                      ∧ GameRoom.status room = waiting)
                             (JsMap.values rs).
Proof.
  unfold getPublicRooms. f_equal.
  induction (JsMap.values rs) as [|room l IH]; simpl; [done|].
  destruct (GameRoom.isPublic room) eqn:Hp; simpl.
  - case_bool_decide as Hs.
    + rewrite filter_cons_True by done. by rewrite IH.
    + rewrite filter_cons_False by tauto. done.
  - rewrite filter_cons_False by (intros [? _]; congruence). done.
Qed.

(** C8 (as amended).  [getPublicRooms] returns, in registry order, exactly
    the rooms with [isPublic == true] and [status == waiting], each projected
    by [getPublicInfo] to an object with the four fields [id], [isPublic],
    [playersCount] and [status] (the count field is named [playersCount]):
    the room's id, its visibility flag, the number of its players and its
    status string; the object has no board field. *)
Theorem getPublicRooms_exact (rs : JsMap.t GameRoom.t) :
  (∀ o, o ∈ getPublicRooms rs ↔
        ∃ room, room ∈ JsMap.values rs
                ∧ GameRoom.isPublic room = true
                ∧ GameRoom.status room = waiting
                ∧ o = getPublicInfo room)
  ∧ getPublicRooms rs
    = getPublicInfo <$> filter (λ room, GameRoom.isPublic room = true
                                        ∧ GameRoom.status room = waiting)
                               (JsMap.values rs)
  ∧ (∀ room,
       (fst <$> getPublicInfo room) = ["id"; "isPublic"; "playersCount"; "status"]
       ∧ prop "id" (getPublicInfo room) = Some (JStr (GameRoom.id room))
       ∧ prop "isPublic" (getPublicInfo room) = Some (JBool (GameRoom.isPublic room))
       ∧ prop "playersCount" (getPublicInfo room)
         = Some (JNum (length (GameRoom.players room)))
       ∧ prop "status" (getPublicInfo room)
         = Some (JStr (status_string (GameRoom.status room)))
       ∧ prop "board" (getPublicInfo room) = None).
Proof.
  split_and!.
  - intros o. rewrite getPublicRooms_filter, list_elem_of_fmap. split.
    + intros (room & -> & [[Hp Hs] Hin]%list_elem_of_filter). by exists room.
    + intros (room & Hin & Hp & Hs & ->). exists room. split; [done|].
      by apply list_elem_of_filter.
  - apply getPublicRooms_filter.
  - intros room. by vm_compute.
Qed.

(** C8 fails as stated: the summary of the listed room [room_A] has no
    field [playerCount]; the player count is under [playersCount]. *)
Lemma getPublicInfo_has_no_playerCount :
  getPublicInfo room_A ∈ getPublicRooms [("R1", room_A)]
  ∧ prop "playerCount" (getPublicInfo room_A) = None
  ∧ ¬ ("playerCount" ∈ fst <$> getPublicInfo room_A)
  ∧ prop "playersCount" (getPublicInfo room_A) = Some (JNum 1).
Proof.
  split_and!; [| reflexivity | | reflexivity].
  - left.
  - simpl. intros H.
    repeat (apply elem_of_cons in H as [H|H]; [discriminate H|]).
    by apply elem_of_nil in H.
Qed.

(** ** leave-room and disconnect *)

Lemma removePlayer_isPublic sid r :
  GameRoom.isPublic (GameRoom.removePlayer sid r) = GameRoom.isPublic r.
Proof. unfold GameRoom.removePlayer. by case_bool_decide. Qed.

Lemma emits_app a1 a2 : emits (a1 ++ a2) = emits a1 ++ emits a2.
Proof. apply omap_app. Qed.

(** The two handlers leave the same room registry, and the player registry
    after a disconnect is the one after leave-room without the caller's
    record.  They emit the same events unless the departure empties a public
    room: leave-room then ends with a ['public-rooms'] broadcast, which
    disconnect does not send. *)
Lemma disconnect_vs_leave_room sid st :
  rooms (disconnect sid st).1 = rooms (leave_room sid st).1
  ∧ players (disconnect sid st).1 = delete sid (players (leave_room sid st).1)
  ∧ (¬ empties_public_room sid st →
     emits (disconnect sid st).2 = emits (leave_room sid st).2)
  ∧ (empties_public_room sid st →
     emits (leave_room sid st).2
     = emits (disconnect sid st).2
       ++ [(ToAll, public_rooms (getPublicRooms (rooms (leave_room sid st).1)))]).
Proof.
  unfold disconnect, leave_room, empties_public_room.
  destruct (players st !! sid) as [player|] eqn:Hp; simpl.
  2:{ split_and!; try done. intros (? & ? & ? & [=] & _). }
  destruct (bound_room player) as [rid|] eqn:Hb; simpl.
  2:{ split_and!; try done. intros (? & ? & ? & [= <-] & ? & _). congruence. }
  assert (Hdel : delete sid (set_roomId sid None (players st)) = delete sid (players st)).
  { unfold set_roomId. rewrite Hp. apply delete_insert_eq. }
  destruct (JsMap.get rid (rooms st)) as [room|] eqn:Hr; simpl.
  2:{ split_and!; try done. intros (? & ? & ? & [= <-] & ? & ? & _). congruence. }
  rewrite removePlayer_isPublic.
  case_bool_decide as Hempty; simpl; (split; [done|]); (split; [done|]); split.
  - intros Hno. destruct (GameRoom.isPublic room) eqn:Hpub.
    + destruct Hno. exists player, rid, room. split_and!; try done.
      by apply nil_length_inv.
    + rewrite !emits_app. simpl. by rewrite app_nil_r.
  - intros (player' & rid' & room' & [= <-] & Hb' & Hr' & Hpub & _).
    assert (rid' = rid) as -> by congruence.
    assert (room' = room) as -> by congruence.
    rewrite Hpub, !emits_app. done.
  - done.
  - intros (player' & rid' & room' & [= <-] & Hb' & Hr' & Hpub & Hnil).
    assert (rid' = rid) as -> by congruence.
    assert (room' = room) as -> by congruence.
    rewrite Hnil in Hempty. done.
Qed.

(** C9, at the input where it fails.  A created the public room R1 and is
    alone in it.  Both handlers remove A and delete the room; leave-room
    then broadcasts ['public-rooms'] (with the now empty listing) to every
    connection, and disconnect broadcasts nothing of the kind. *)
Theorem disconnect_omits_public_rooms :
  rooms (leave_room "A" lobby_with_open_room).1 = []
  ∧ rooms (disconnect "A" lobby_with_open_room).1 = []
  ∧ (ToAll, public_rooms []) ∈ emits (leave_room "A" lobby_with_open_room).2
  ∧ (∀ l, ¬ ((ToAll, public_rooms l) ∈ emits (disconnect "A" lobby_with_open_room).2))
  ∧ emits (leave_room "A" lobby_with_open_room).2
    = emits (disconnect "A" lobby_with_open_room).2 ++ [(ToAll, public_rooms [])].
Proof.
  split_and!; [reflexivity | reflexivity | | | reflexivity].
  - vm_compute. right. left.
  - intros l H. vm_compute in H.
    apply elem_of_cons in H as [H|H]; [discriminate H|]. by apply elem_of_nil in H.
Qed.

(** ** The room registry *)

Lemma JsMap_get_set_eq {V} k (v : V) m : JsMap.get k (JsMap.set k v m) = Some v.
Proof.
  induction m as [|[k' v'] m IH]; simpl.
  - by rewrite String.eqb_refl.
  - destruct (String.eqb_spec k k') as [->|Hne]; simpl.
    + by rewrite String.eqb_refl.
    + by destruct (String.eqb_spec k k').
Qed.

Lemma JsMap_get_set_ne {V} k k' (v : V) m :
  k ≠ k' → JsMap.get k' (JsMap.set k v m) = JsMap.get k' m.
Proof.
  intros Hne. induction m as [|[k0 v0] m IH]; simpl.
  - by destruct (String.eqb_spec k' k) as [->|].
  - destruct (String.eqb_spec k k0) as [->|Hk]; simpl.
    + by destruct (String.eqb_spec k' k0) as [->|].
    + by rewrite IH.
Qed.

Lemma JsMap_get_delete_eq {V} k (m : JsMap.t V) : JsMap.get k (JsMap.delete k m) = None.
Proof.
  induction m as [|[k' v'] m IH]; simpl; [done|].
  destruct (String.eqb_spec k k') as [->|Hne]; simpl; [done|].
  by destruct (String.eqb_spec k k').
Qed.

Lemma JsMap_get_delete_ne {V} k k' (m : JsMap.t V) :
  k ≠ k' → JsMap.get k' (JsMap.delete k m) = JsMap.get k' m.
Proof.
  intros Hne. induction m as [|[k0 v0] m IH]; simpl; [done|].
  destruct (String.eqb_spec k k0) as [->|Hk]; simpl.
  - rewrite IH. by destruct (String.eqb_spec k' k0) as [->|].
  - by rewrite IH.
Qed.

(** ** request-rematch *)

(** What the handler does on a finished room of two players: it resets the
    room and broadcasts the new state when, with the caller's flag set, both
    entries' connections have their flag set; otherwise the registry of rooms
    is untouched and the only emit is ['rematch-requested'] to the room
    without the caller. *)
Lemma request_rematch_two_players sid rid st room :
  JsMap.get rid (rooms st) = Some room →
  GameRoom.status room = finished →
  length (GameRoom.players room) = 2 →
  if forallb (λ p, is_ready (set_ready sid true (players st)) (GameRoom.socketId p))
             (GameRoom.players room)
  then rooms (request_rematch sid rid st).1
       = JsMap.set rid (GameRoom.reset room) (rooms st)
       ∧ (request_rematch sid rid st).2
         = [Emit (ToRoom rid) (game_state (snapshot (GameRoom.reset room)))]
  else rooms (request_rematch sid rid st).1 = rooms st
       ∧ (request_rematch sid rid st).2
         = [Emit (ToRoomExcept rid sid) rematch_requested].
Proof.
  intros Hget Hfin Hlen. unfold request_rematch. rewrite Hget.
  rewrite bool_decide_eq_false_2 by (by intros []).
  rewrite bool_decide_eq_true_2 by done.
  destruct (forallb _ _); simpl; [|done].
  split; [done|]. unfold updateRoomState. simpl. by rewrite JsMap_get_set_eq.
Qed.

(** The handler touches no room unless the room named is finished and has
    two players. *)
Lemma request_rematch_otherwise sid rid st :
  (∀ room, JsMap.get rid (rooms st) = Some room →
           GameRoom.status room ≠ finished ∨ length (GameRoom.players room) ≠ 2) →
  rooms (request_rematch sid rid st).1 = rooms st
  ∧ (request_rematch sid rid st).2 = [].
Proof.
  intros H. unfold request_rematch.
  destruct (JsMap.get rid (rooms st)) as [room|]; [|done].
  case_bool_decide as Hst; [done|].
  case_bool_decide as Hlen; [|done].
  destruct (H room eq_refl); tauto.
Qed.

(** C3, at the input where it fails.  After [stale_rematch_trace] room R2
    is finished, its players are A and C, and no request-rematch for R2 has
    been issued by anyone; A's flag is still set from A's request in R1.
    C's single request then resets R2: status playing, empty board, no
    moves, and the only emit is the state broadcast, not the
    ['rematch-requested'] notification. *)
Theorem rematch_completes_on_stale_flag :
  (GameRoom.status <$> JsMap.get "R2" (rooms (run stale_rematch_trace init).1))
  = Some finished
  ∧ ((λ room, GameRoom.socketId <$> GameRoom.players room)
       <$> JsMap.get "R2" (rooms (run stale_rematch_trace init).1))
    = Some ["A"; "C"]
  ∧ (∀ sid, ¬ (RequestRematch sid "R2" ∈ stale_rematch_trace))
  ∧ is_ready (players (run stale_rematch_trace init).1) "A" = true
  ∧ is_ready (players (run stale_rematch_trace init).1) "C" = false
  ∧ (JsMap.get "R2"
       (rooms (request_rematch "C" "R2" (run stale_rematch_trace init).1).1))
    = Some (GameRoom.mk "R2" false "A"
              [GameRoom.mkEntry "A" "alice" X; GameRoom.mkEntry "C" "carol" O]
              empty_board X playing None 0)
  ∧ (fst <$> emits (request_rematch "C" "R2" (run stale_rematch_trace init).1).2)
    = [ToRoom "R2"].
Proof.
  split_and!; try (vm_compute; reflexivity).
  intros sid H. unfold stale_rematch_trace, top_row_win in H. simpl in H.
  repeat (apply elem_of_cons in H as [H|H]; [discriminate H|]).
  by apply elem_of_nil in H.
Qed.

(** ** Rooms of reachable registries *)

Ltac get_set k rid :=
  destruct (decide (k = rid)) as [->|?];
  [rewrite JsMap_get_set_eq | rewrite JsMap_get_set_ne by done].

Lemma leave_rooms_get rid0 rid sid room (rs : JsMap.t GameRoom.t) r' :
  JsMap.get rid0 rs = Some room →
  JsMap.get rid
    (if bool_decide (length (GameRoom.players (GameRoom.removePlayer sid room)) = 0)
     then JsMap.delete rid0 (JsMap.set rid0 (GameRoom.removePlayer sid room) rs)
     else JsMap.set rid0 (GameRoom.removePlayer sid room) rs) = Some r' →
  JsMap.get rid rs = Some r'
  ∨ room_init r' ∨ ∃ r, JsMap.get rid rs = Some r ∧ room_step r r'.
Proof.
  intros Hget. destruct (decide (rid0 = rid)) as [->|Hne].
  - case_bool_decide.
    + by rewrite JsMap_get_delete_eq.
    + rewrite JsMap_get_set_eq. intros [= <-]. right. right.
      exists room. split; [done | constructor].
  - case_bool_decide.
    + rewrite JsMap_get_delete_ne, JsMap_get_set_ne by done. by left.
    + rewrite JsMap_get_set_ne by done. by left.
Qed.

(** Every room of the registry after an event was there before, or is a
    newly created one, or comes from one that was there by one guarded
    method call. *)
Lemma handle_room e st rid r' :
  JsMap.get rid (rooms (handle e st).1) = Some r' →
  JsMap.get rid (rooms st) = Some r'
  ∨ room_init r' ∨ ∃ r, JsMap.get rid (rooms st) = Some r ∧ room_step r r'.
Proof.
  destruct e as [sid nm | sid k pub nm | sid k nm | sid k i | sid k | sid | sid]; simpl.
  - by left.
  - get_set k rid; [|by left]. intros [= <-]. right. left. constructor.
  - unfold join_room. destruct (JsMap.get k (rooms st)) as [room|] eqn:Hget; [|by left].
    case_bool_decide as Hlen; [by left|].
    destruct (bool_decide (GameRoom.status room = playing)
              || bool_decide (GameRoom.status room = finished)) eqn:Hst; [by left|].
    simpl. get_set k rid; [|by left]. intros [= <-]. right. right.
    exists room. split; [done|]. apply orb_false_iff in Hst as [H1 H2].
    apply bool_decide_eq_false in H1, H2.
    constructor; [lia | by destruct (GameRoom.status room)].
  - unfold make_move. destruct (JsMap.get k (rooms st)) as [room|] eqn:Hget; [|by left].
    destruct (GameRoom.makeMove i sid room) as [ok room'] eqn:Hmove.
    destruct ok; [|by left]. simpl. get_set k rid; [|by left]. intros [= <-].
    right. right. exists room. split; [done|].
    replace room' with (GameRoom.makeMove i sid room).2 by by rewrite Hmove.
    constructor. by rewrite Hmove.
  - unfold request_rematch.
    destruct (JsMap.get k (rooms st)) as [room|] eqn:Hget; [|by left].
    case_bool_decide as Hst; [by left|].
    case_bool_decide as Hlen; [|by left].
    destruct (forallb _ _); [|by left]. simpl.
    get_set k rid; [|by left]. intros [= <-]. right. right.
    exists room. split; [done|]. constructor; [|done].
    by destruct (GameRoom.status room).
  - unfold leave_room. destruct (players st !! sid) as [player|]; [|by left].
    destruct (bound_room player) as [k|]; [|by left].
    destruct (JsMap.get k (rooms st)) as [room|] eqn:Hget; [|by left].
    simpl. by apply leave_rooms_get.
  - unfold disconnect. destruct (players st !! sid) as [player|]; [|by left].
    destruct (bound_room player) as [k|]; [|by left].
    destruct (JsMap.get k (rooms st)) as [room|] eqn:Hget; [|by left].
    intros H. apply (leave_rooms_get k rid sid room); [done|].
    revert H. by case_bool_decide.
Qed.

Lemma reachable_rooms st rid r :
  reachable st → JsMap.get rid (rooms st) = Some r → room_reachable r.
Proof.
  intros Hreach. revert rid r.
  induction Hreach as [|st e Hreach IH]; intros rid r Hget; [done|].
  apply handle_room in Hget as [Hold | [Hnew | (r0 & Hold & Hstep)]].
  - by eapply IH.
  - by apply rr_init.
  - eapply rr_step; [by eapply IH | done].
Qed.

Lemma reachable_run es st : reachable st → reachable (run es st).1.
Proof.
  revert st. induction es as [|e es IH]; intros st Hst; simpl; [done|].
  destruct (handle e st) as [st1 out1] eqn:He.
  specialize (IH st1). destruct (run es st1) as [st2 out2]. simpl in *.
  apply IH. replace st1 with (handle e st).1 by by rewrite He.
  by constructor.
Qed.

(** ** Boards *)

Lemma empty_board_no_line m p : ¬ occupies empty_board m p.
Proof.
  intros [H _]. unfold empty_board in H. by apply lookup_replicate in H as [? _].
Qed.

Lemma empty_board_one_sided : one_sided empty_board.
Proof. intros p q m m' _ _ H _. by apply empty_board_no_line in H. Qed.

Lemma occupies_insert b i m m' p :
  occupies (<[i := Some m]> b) m' p → occupies b m' p ∨ m' = m.
Proof.
  destruct p as [[j k] l]. unfold occupies. simpl.
  rewrite !list_lookup_insert_Some. intros (Hj & Hk & Hl).
  destruct Hj as [(_ & [= ->] & _) | [_ Hj]]; [by right|].
  destruct Hk as [(_ & [= ->] & _) | [_ Hk]]; [by right|].
  destruct Hl as [(_ & [= ->] & _) | [_ Hl]]; [by right|].
  by left.
Qed.

(** A move on a board without a full line can only complete lines of the
    mark it places. *)
Lemma insert_one_sided b i m :
  checkWinner b = None → one_sided (<[i := Some m]> b).
Proof.
  intros Hnone p q m1 m2 Hp Hq H1 H2.
  pose proof (proj1 (checkWinner_None b) Hnone) as Hno.
  apply occupies_insert in H1 as [H1 | ->]; [by destruct (Hno p m1)|].
  apply occupies_insert in H2 as [H2 | ->]; [by destruct (Hno q m2)|].
  done.
Qed.

Lemma marks_on_insert b n m :
  b !! n = Some None → marks_on (<[n := Some m]> b) = S (marks_on b).
Proof.
  unfold marks_on. revert n. induction b as [|c b IH]; intros n; [done|].
  destruct n as [|n]; simpl.
  - intros [= ->]. by rewrite filter_cons_False by (by intros [? ?]).
  - intros Hn. rewrite !filter_cons. destruct (decide (is_Some c)); simpl;
      by rewrite IH.
Qed.

Lemma marks_on_le b : marks_on b ≤ length b.
Proof. apply length_filter. Qed.

(** ** The invariant of stored rooms *)

Lemma makeMove_result i sid r :
  (GameRoom.makeMove i sid r).1 = true →
  (GameRoom.makeMove i sid r).2
  = let board' := <[Z.to_nat i := Some (GameRoom.currentPlayer r)]> (GameRoom.board r) in
    if bool_decide (is_Some (checkWinner board')) || bool_decide (S (GameRoom.moves r) = 9)
    then GameRoom.mk (GameRoom.id r) (GameRoom.isPublic r) (GameRoom.creatorId r)
           (GameRoom.players r) board' (GameRoom.currentPlayer r) finished
           (checkWinner board') (S (GameRoom.moves r))
    else GameRoom.mk (GameRoom.id r) (GameRoom.isPublic r) (GameRoom.creatorId r)
           (GameRoom.players r) board' (toggle (GameRoom.currentPlayer r)) playing
           (checkWinner board') (S (GameRoom.moves r)).
Proof.
  intros H. pose proof (proj1 (makeMove_true i sid r) H) as (Hst & _).
  revert H. unfold GameRoom.makeMove.
  repeat (case_bool_decide || case_match); simpl; try done; by rewrite Hst.
Qed.

Lemma room_ok_init r : room_init r → room_ok r.
Proof.
  intros [sid rid pub nm]. split; simpl; try done.
  - lia.
  - intros _. split_and!; try done. intros p ->%list_elem_of_singleton. done.
  - apply empty_board_one_sided.
Qed.

Lemma room_ok_step r r' : room_ok r → room_step r r' → room_ok r'.
Proof.
  intros Hok Hstep. destruct Hstep as [sid nm r Hlen Hst | i sid r Hmove | r Hst Hlen | sid r].
  - destruct (ok_waiting r Hok Hst) as (Hb & Hc & _ & HX).
    destruct (GameRoom.players r) as [|p [|q l]] eqn:E; [| |simpl in Hlen; lia].
    + rewrite addPlayer_first by by rewrite E.
      destruct Hok as [Hboard Hseats Hwait Hplay Hfin Hwin Hone Hmoves Hfull].
      split; simpl; try done; try lia.
      intros _. split_and!; try done. by intros p ->%list_elem_of_singleton.
    + rewrite addPlayer_second by by rewrite E.
      destruct Hok as [Hboard Hseats Hwait Hplay Hfin Hwin Hone Hmoves Hfull].
      split; simpl; rewrite ?E; simpl; try done; try lia.
      * intros _. rewrite Hb. split; [done|]. rewrite Hmoves, Hb. vm_compute. lia.
      * intros _. by left.
  - pose proof (proj1 (makeMove_true i sid r) Hmove) as (Hst & Hcell & _).
    apply at_index_Some_None in Hcell as [Hi Hcell].
    destruct (ok_playing r Hok Hst) as [Hnone Hlt].
    rewrite (makeMove_result i sid r Hmove). simpl.
    destruct Hok as [Hboard Hseats Hwait Hplay Hfin Hwin Hone Hmoves Hfull].
    destruct (bool_decide (is_Some _) || bool_decide _) eqn:Hend;
      split; simpl; try done; rewrite ?length_insert; try done.
    + intros _. apply orb_true_iff in Hend as [H|H]; apply bool_decide_eq_true in H; eauto.
    + by apply insert_one_sided.
    + rewrite marks_on_insert by done. by f_equal.
    + intros _. by right.
    + intros _. apply orb_false_iff in Hend as [H1 H2].
      apply bool_decide_eq_false in H1, H2.
      split; [by apply eq_None_not_Some | lia].
    + by apply insert_one_sided.
    + rewrite marks_on_insert by done. by f_equal.
    + intros _. by left.
  - destruct Hok as [Hboard Hseats Hwait Hplay Hfin Hwin Hone Hmoves Hfull].
      split; simpl; rewrite ?bool_decide_eq_true_2 by done; try done; try lia.
    + intros H. simpl in H. by rewrite bool_decide_eq_true_2 in H by done.
    + intros _. split; [done | lia].
    + apply empty_board_one_sided.
    + intros _. simpl. rewrite bool_decide_eq_true_2 by done. by left.
  - destruct (filter (λ p, GameRoom.socketId p ≠ sid) (GameRoom.players r))
      as [|e l] eqn:E.
    + rewrite removePlayer_none_left by done. split; simpl; try done; try lia.
      * intros _. simpl. split_and!; try done; [lia|]. intros p Hp. inversion Hp.
      * apply empty_board_one_sided.
    + rewrite removePlayer_some_left by by rewrite E.
      pose proof (length_filter (λ p, GameRoom.socketId p ≠ sid) (GameRoom.players r)) as Hle.
      destruct Hok as [Hboard Hseats Hwait Hplay Hfin Hwin Hone Hmoves Hfull].
      split; simpl; try done; try lia.
      * intros Hst. destruct (Hwait Hst) as (? & ? & ? & HX).
        simpl. split_and!; try done; [lia|].
        intros p [_ Hp]%list_elem_of_filter. by apply HX.
      * intros H2. simpl in H2. apply Hfull. lia.
Qed.

Lemma room_reachable_ok r : room_reachable r → room_ok r.
Proof.
  induction 1 as [r Hinit | r r' _ IH Hstep].
  - by apply room_ok_init.
  - by eapply room_ok_step.
Qed.

(** Every room of a reachable registry satisfies [room_ok]. *)
Lemma reachable_room_ok st rid r :
  reachable st → JsMap.get rid (rooms st) = Some r → room_ok r.
Proof. intros Hst Hget. eapply room_reachable_ok, reachable_rooms; done. Qed.

(** ** join-room by a connection already seated *)

(** ['join-room'] on a waiting room with one player seats the caller
    second, whoever the caller is. *)
Lemma join_room_second_seat sid rid nm st room p :
  JsMap.get rid (rooms st) = Some room →
  GameRoom.status room = waiting →
  GameRoom.players room = [p] →
  JsMap.get rid (rooms (join_room sid rid nm st).1)
  = Some (GameRoom.with_status playing
            (GameRoom.with_players [p; GameRoom.mkEntry sid nm O] room))
  ∧ emits (join_room sid rid nm st).2
    = (ToSocket sid, room_joined rid)
      :: (ToRoom rid,
          game_state (snapshot (GameRoom.with_status playing
                        (GameRoom.with_players [p; GameRoom.mkEntry sid nm O] room))))
      :: (if GameRoom.isPublic room
          then [(ToAll, public_rooms (getPublicRooms (rooms (join_room sid rid nm st).1)))]
          else []).
Proof.
  intros Hget Hst Hp. unfold join_room. rewrite Hget, Hp, Hst. simpl.
  rewrite addPlayer_second by by rewrite Hp. rewrite Hp. simpl.
  unfold updateRoomState. simpl. rewrite JsMap_get_set_eq. split; [done|].
  by destruct (GameRoom.isPublic room).
Qed.

(** C10.  [addPlayer] and the ['join-room'] handler never compare the
    joining connection id with the ids already seated.  In every reachable
    registry, for every waiting room with one player, a ['join-room'] from
    that player's own connection succeeds: ['room-joined'] is sent to the
    caller and no ['error'], and the room then has two entries with the same
    connection id, the first holding X and the second O, and status
    playing. *)
Theorem join_room_same_connection
    (st : Server) (rid nm : string) (room : GameRoom.t) (p : GameRoom.PlayerEntry) :
  reachable st →
  JsMap.get rid (rooms st) = Some room →
  GameRoom.status room = waiting →
  GameRoom.players room = [p] →
  GameRoom.symbol p = X
  ∧ GameRoom.addPlayer (GameRoom.socketId p) nm room
    = (true, GameRoom.with_status playing
               (GameRoom.with_players
                  [p; GameRoom.mkEntry (GameRoom.socketId p) nm O] room))
  ∧ JsMap.get rid (rooms (join_room (GameRoom.socketId p) rid nm st).1)
    = Some (GameRoom.with_status playing
              (GameRoom.with_players
                 [p; GameRoom.mkEntry (GameRoom.socketId p) nm O] room))
  ∧ (ToSocket (GameRoom.socketId p), room_joined rid)
    ∈ emits (join_room (GameRoom.socketId p) rid nm st).2
  ∧ (∀ to msg, ¬ ((to, error msg) ∈ emits (join_room (GameRoom.socketId p) rid nm st).2)).
Proof.
  intros Hreach Hget Hst Hp.
  pose proof (reachable_room_ok st rid room Hreach Hget) as Hok.
  destruct (ok_waiting room Hok Hst) as (_ & _ & _ & HX).
  destruct (join_room_second_seat (GameRoom.socketId p) rid nm st room p Hget Hst Hp)
    as [Hroom Hout].
  split_and!.
  - apply HX. rewrite Hp. left.
  - rewrite addPlayer_second by by rewrite Hp. by rewrite Hp.
  - done.
  - rewrite Hout. left.
  - intros to msg. rewrite Hout. intros H.
    apply elem_of_cons in H as [[=]|H].
    apply elem_of_cons in H as [[=]|H].
    destruct (GameRoom.isPublic room).
    + apply elem_of_cons in H as [[=]|H]. by apply elem_of_nil in H.
    + by apply elem_of_nil in H.
Qed.

Lemma join_room_same_connection_witness :
  JsMap.get "R1" (rooms (join_room "A" "R1" "alice" lobby_with_open_room).1)
  = Some (GameRoom.mk "R1" true "A"
            [GameRoom.mkEntry "A" "alice" X; GameRoom.mkEntry "A" "alice" O]
            empty_board X playing None 0).
Proof.
  refine (proj1 (proj2 (proj2
    (join_room_same_connection lobby_with_open_room "R1" "alice" room_A
       (GameRoom.mkEntry "A" "alice" X) _ eq_refl eq_refl eq_refl)))).
  apply (reachable_run [JoinLobby "A" "alice"; CreateRoom "A" "R1" true "alice"] init).
  constructor.
Defined.

(** ** Rooms reached by play *)

(** On the board of every room of a reachable registry, [checkWinner]
    returns a mark if and only if that mark occupies all three cells of one
    of the eight triples: play never produces a board on which both marks
    hold a full line. *)
Theorem reachable_checkWinner_iff
    (st : Server) (rid : string) (room : GameRoom.t) (m : Mark) :
  reachable st →
  JsMap.get rid (rooms st) = Some room →
  (checkWinner (GameRoom.board room) = Some m ↔
     ∃ p, p ∈ winPatterns ∧ occupies (GameRoom.board room) m p).
Proof.
  intros Hreach Hget. apply checkWinner_one_sided.
  by destruct (reachable_room_ok st rid room Hreach Hget).
Qed.

Lemma reachable_checkWinner_iff_witness :
  checkWinner (GameRoom.board room_won) = Some X ↔
    ∃ p, p ∈ winPatterns ∧ occupies (GameRoom.board room_won) X p.
Proof.
  refine (reachable_checkWinner_iff (run won_trace init).1 "R1" room_won X _ eq_refl).
  apply reachable_run. constructor.
Defined.

(** In every room of a reachable registry the move count is the number of
    marks on the 9-cell board and the stored winner is what [checkWinner]
    returns for the board; hence the snapshot's [isDraw] is true if and only
    if the board is full and no triple is fully occupied by one mark. *)
Theorem reachable_draw_is_full_board
    (st : Server) (rid : string) (room : GameRoom.t) :
  reachable st →
  JsMap.get rid (rooms st) = Some room →
  length (GameRoom.board room) = 9
  ∧ GameRoom.moves room = marks_on (GameRoom.board room)
  ∧ GameRoom.winner room = checkWinner (GameRoom.board room)
  ∧ (isDraw (snapshot room) = true ↔
       marks_on (GameRoom.board room) = 9
       ∧ ∀ p m, p ∈ winPatterns → ¬ occupies (GameRoom.board room) m p).
Proof.
  intros Hreach Hget.
  destruct (reachable_room_ok st rid room Hreach Hget)
    as [Hboard Hseats Hwait Hplay Hfin Hwin Hone Hmoves Hfull].
  split_and!; try done.
  by rewrite snapshot_isDraw, Hmoves, Hwin, checkWinner_None.
Qed.

Lemma reachable_draw_is_full_board_witness :
  GameRoom.moves room_won = marks_on (GameRoom.board room_won).
Proof.
  refine (proj1 (proj2
    (reachable_draw_is_full_board (run won_trace init).1 "R1" room_won _ eq_refl))).
  apply reachable_run. constructor.
Defined.

(** In every room of a reachable registry there are at most two players;
    two players imply a status of playing or finished; a waiting room has
    an empty board, X to move, and at most one player, who holds X; a
    playing room has no full line yet and fewer than nine moves; a finished
    room has a winner or nine moves. *)
Theorem reachable_room_shape (st : Server) (rid : string) (room : GameRoom.t) :
  reachable st →
  JsMap.get rid (rooms st) = Some room →
  length (GameRoom.players room) ≤ 2
  ∧ full_started room
  ∧ waiting_fresh room
  ∧ (GameRoom.status room = playing →
     checkWinner (GameRoom.board room) = None ∧ GameRoom.moves room < 9)
  ∧ (GameRoom.status room = finished →
     is_Some (GameRoom.winner room) ∨ GameRoom.moves room = 9).
Proof.
  intros Hreach Hget.
  by destruct (reachable_room_ok st rid room Hreach Hget).
Qed.

Lemma reachable_room_shape_witness : length (GameRoom.players room_won) ≤ 2.
Proof.
  refine (proj1
    (reachable_room_shape (run won_trace init).1 "R1" room_won _ eq_refl)).
  apply reachable_run. constructor.
Defined.

Lemma request_rematch_two_players_witness :
  rooms (request_rematch "A" "R1" (run won_trace init).1).1
  = rooms (run won_trace init).1
  ∧ (request_rematch "A" "R1" (run won_trace init).1).2
    = [Emit (ToRoomExcept "R1" "A") rematch_requested].
Proof.
  exact (request_rematch_two_players "A" "R1" (run won_trace init).1 room_won
           eq_refl eq_refl eq_refl).
Defined.

(** ** Turn order, seats and the winner *)

Lemma marks_of_insert b n m m' :
  b !! n = Some None →
  marks_of m' (<[n := Some m]> b)
  = marks_of m' b + (if decide (m' = m) then 1 else 0).
Proof.
  unfold marks_of, Cell in *. revert n. induction b as [|c b IH]; intros n; [done|].
  destruct n as [|n]; simpl.
  - intros [= ->]. rewrite !filter_cons.
    repeat case_decide; simplify_eq; simpl; lia.
  - intros Hn. rewrite !filter_cons. specialize (IH n Hn).
    destruct (decide (c = Some m')); simpl; lia.
Qed.

Lemma marks_of_empty m : marks_of m empty_board = 0.
Proof. by destruct m. Qed.

Lemma seat_marks_filter sid l :
  (GameRoom.symbol <$> l = [] ∨ GameRoom.symbol <$> l = [X]
   ∨ GameRoom.symbol <$> l = [O] ∨ GameRoom.symbol <$> l = [X; O]) →
  let l' := filter (λ p, GameRoom.socketId p ≠ sid) l in
  GameRoom.symbol <$> l' = [] ∨ GameRoom.symbol <$> l' = [X]
  ∨ GameRoom.symbol <$> l' = [O] ∨ GameRoom.symbol <$> l' = [X; O].
Proof.
  intros H l'. subst l'. destruct l as [|p [|q [|? ?]]]; simpl in H.
  - by left.
  - rewrite filter_cons, filter_nil. case_decide; simpl; [done | by left].
  - destruct H as [H|[H|[H|H]]]; try discriminate. injection H as Hp Hq.
    rewrite !filter_cons, filter_nil.
    repeat case_decide; simpl; rewrite ?Hp, ?Hq; eauto.
  - destruct H as [H|[H|[H|H]]]; discriminate.
Qed.

Lemma room_reachable_turn_ok r : room_reachable r → turn_ok r.
Proof.
  induction 1 as [r Hinit | r r' Hreach IH Hstep].
  - destruct Hinit as [sid rid pub nm]. split; try done. right. by left.
  - pose proof (room_reachable_ok r Hreach)
      as [Hboard Hseats Hwait Hplay Hfin Hwin Hone Hmoves Hfull].
    destruct IH as [Ts Tl Tw].
    destruct Hstep as [sid nm r Hlen Hst | i sid r Hmove | r Hst Hlen | sid r].
    + destruct (Hwait Hst) as (Hb & Hc & _ & HX).
      unfold seat_marks in *.
      destruct (GameRoom.players r) as [|p [|q l]] eqn:E; [| |simpl in Hlen; lia].
      * rewrite addPlayer_first by by rewrite E. split; simpl; try done.
        right. by left.
      * rewrite addPlayer_second by by rewrite E.
        split; unfold seat_marks, x_lead; simpl; rewrite ?E; simpl; try done.
        -- rewrite (HX p) by left. by repeat right.
        -- by rewrite Hb, Hc.
        -- intros m Hm. rewrite Hwin, Hb in Hm. discriminate.
    + pose proof (proj1 (makeMove_true i sid r) Hmove) as (Hst & Hcell & _).
      apply at_index_Some_None in Hcell as [Hi Hcell].
      destruct (Hplay Hst) as [Hnone Hlt].
      rewrite (makeMove_result i sid r Hmove). simpl.
      unfold x_lead in Tl. rewrite Hst in Tl.
      destruct (bool_decide (is_Some _) || bool_decide _) eqn:Hend;
        split; unfold seat_marks, x_lead; simpl; try done.
      * rewrite !marks_of_insert by done.
        destruct (GameRoom.currentPlayer r); simpl in *; lia.
      * intros m Hm. split; [done|].
        apply checkWinner_sound in Hm as (p & Hp & Ho).
        apply occupies_insert in Ho as [Ho | ->]; [|done].
        by destruct (proj1 (checkWinner_None _) Hnone p m).
      * rewrite !marks_of_insert by done.
        destruct (GameRoom.currentPlayer r); simpl in *; lia.
      * intros m Hm. apply orb_false_iff in Hend as [H1 _].
        apply bool_decide_eq_false in H1. destruct H1. by rewrite Hm.
    + split; unfold seat_marks, x_lead; simpl;
        rewrite ?bool_decide_eq_true_2 by done; try done.
    + destruct (filter (λ p, GameRoom.socketId p ≠ sid) (GameRoom.players r))
        as [|e l] eqn:E.
      * rewrite removePlayer_none_left by done. split; try done. by left.
      * rewrite removePlayer_some_left by by rewrite E.
        split; unfold seat_marks, x_lead; simpl; try done.
        by apply seat_marks_filter.
Qed.

Lemma reachable_turn_ok st rid r :
  reachable st → JsMap.get rid (rooms st) = Some r → turn_ok r.
Proof. intros Hst Hget. eapply room_reachable_turn_ok, reachable_rooms; done. Qed.

Lemma marks_on_split b : marks_on b = marks_of X b + marks_of O b.
Proof.
  unfold marks_on, marks_of, Cell. induction b as [|c b IH]; [done|].
  rewrite !filter_cons. destruct c as [[]|]; simpl;
    repeat case_decide; simplify_eq; simpl; try lia;
    match goal with H : ¬ is_Some _ |- _ => by destruct H | H : is_Some None |- _ => by destruct H end.
Qed.

(** In every room of a reachable registry the marks of the seats, in seat
    order, are none, X alone, O alone (after X left), or X then O: two seats
    are always X first and O second, and no two seats hold the same mark. *)
Theorem reachable_seat_marks (st : Server) (rid : string) (room : GameRoom.t) :
  reachable st →
  JsMap.get rid (rooms st) = Some room →
  (seat_marks room = [] ∨ seat_marks room = [X]
   ∨ seat_marks room = [O] ∨ seat_marks room = [X; O])
  ∧ (length (GameRoom.players room) = 2 → seat_marks room = [X; O])
  ∧ NoDup (seat_marks room).
Proof.
  intros Hreach Hget.
  destruct (reachable_turn_ok st rid room Hreach Hget) as [Ts _ _].
  split; [done|]. split.
  - intros Hlen. assert (length (seat_marks room) = 2) as Hl
      by (unfold seat_marks; by rewrite length_fmap).
    destruct Ts as [H|[H|[H|H]]]; rewrite H in Hl; done.
  - destruct Ts as [H|[H|[H|H]]]; rewrite H; repeat constructor;
      rewrite ?elem_of_cons, ?elem_of_nil; intuition discriminate.
Qed.

Lemma reachable_seat_marks_witness : seat_marks room_won = [X; O].
Proof.
  refine (proj1 (proj2
    (reachable_seat_marks (run won_trace init).1 "R1" room_won _ eq_refl)) eq_refl).
  apply reachable_run. constructor.
Defined.

(** In every room of a reachable registry X and O alternate, X first: O
    never has more marks than X and X never more than one more than O; the
    marks of both add up to the move count; and while the game is not
    finished it is X's turn exactly when both have placed the same number of
    marks. *)
Theorem reachable_turn_order (st : Server) (rid : string) (room : GameRoom.t) :
  reachable st →
  JsMap.get rid (rooms st) = Some room →
  marks_of O (GameRoom.board room) ≤ marks_of X (GameRoom.board room)
  ∧ marks_of X (GameRoom.board room) ≤ marks_of O (GameRoom.board room) + 1
  ∧ marks_of X (GameRoom.board room) + marks_of O (GameRoom.board room)
    = GameRoom.moves room
  ∧ GameRoom.moves room ≤ 9
  ∧ (GameRoom.status room ≠ finished →
     (GameRoom.currentPlayer room = X ↔
        marks_of X (GameRoom.board room) = marks_of O (GameRoom.board room))).
Proof.
  intros Hreach Hget.
  destruct (reachable_turn_ok st rid room Hreach Hget) as [_ Tl _].
  destruct (reachable_room_ok st rid room Hreach Hget)
    as [Hboard _ _ _ _ _ _ Hmoves _].
  pose proof (marks_on_split (GameRoom.board room)) as Hsplit.
  pose proof (marks_on_le (GameRoom.board room)) as Hle.
  unfold x_lead in Tl.
  split_and!; try (destruct (GameRoom.status room), (GameRoom.currentPlayer room); lia).
  intros Hst.
  destruct (GameRoom.status room), (GameRoom.currentPlayer room);
    try done; split; intros; try done; try lia.
Qed.

Lemma reachable_turn_order_witness :
  marks_of O (GameRoom.board room_won) ≤ marks_of X (GameRoom.board room_won).
Proof.
  refine (proj1
    (reachable_turn_order (run won_trace init).1 "R1" room_won _ eq_refl)).
  apply reachable_run. constructor.
Defined.

(** In every room of a reachable registry a winner is only ever set on a
    finished room, is the mark of [currentPlayer] (the player who moved
    last, whose turn is not passed on) and occupies one of the eight winning
    triples; a room that is waiting or playing has no winner. *)
Theorem reachable_winner_moved_last
    (st : Server) (rid : string) (room : GameRoom.t) (m : Mark) :
  reachable st →
  JsMap.get rid (rooms st) = Some room →
  GameRoom.winner room = Some m →
  GameRoom.status room = finished
  ∧ GameRoom.currentPlayer room = m
  ∧ ∃ p, p ∈ winPatterns ∧ occupies (GameRoom.board room) m p.
Proof.
  intros Hreach Hget Hw.
  destruct (reachable_turn_ok st rid room Hreach Hget) as [_ _ Tw].
  destruct (reachable_room_ok st rid room Hreach Hget)
    as [_ _ _ _ _ Hwin _ _ _].
  destruct (Tw m Hw) as [Hst Hc]. split_and!; [done..|].
  apply checkWinner_sound. by rewrite <- Hwin.
Qed.

Lemma reachable_winner_moved_last_witness :
  GameRoom.currentPlayer room_won = X.
Proof.
  refine (proj1 (proj2
    (reachable_winner_moved_last (run won_trace init).1 "R1" room_won X
       _ eq_refl eq_refl))).
  apply reachable_run. constructor.
Defined.

(** ** A successful move *)

(** A successful [makeMove] writes the mover's mark, the one of
    [currentPlayer], into the addressed cell and changes no other cell; it
    adds one to the move count and keeps the seats; the room is then
    finished with the turn left where it was, or still playing with the
    turn passed to the other mark. *)
Theorem makeMove_changes_one_cell (r : GameRoom.t) (i : Z) (sid : string) :
  (GameRoom.makeMove i sid r).1 = true →
  GameRoom.board (GameRoom.makeMove i sid r).2 !! Z.to_nat i
  = Some (Some (GameRoom.currentPlayer r))
  ∧ (∀ j, j ≠ Z.to_nat i →
          GameRoom.board (GameRoom.makeMove i sid r).2 !! j = GameRoom.board r !! j)
  ∧ length (GameRoom.board (GameRoom.makeMove i sid r).2) = length (GameRoom.board r)
  ∧ GameRoom.moves (GameRoom.makeMove i sid r).2 = S (GameRoom.moves r)
  ∧ GameRoom.players (GameRoom.makeMove i sid r).2 = GameRoom.players r
  ∧ (GameRoom.status (GameRoom.makeMove i sid r).2 = finished
     ∧ GameRoom.currentPlayer (GameRoom.makeMove i sid r).2 = GameRoom.currentPlayer r
     ∨ GameRoom.status (GameRoom.makeMove i sid r).2 = playing
       ∧ GameRoom.winner (GameRoom.makeMove i sid r).2 = None
       ∧ GameRoom.currentPlayer (GameRoom.makeMove i sid r).2
         = toggle (GameRoom.currentPlayer r)).
Proof.
  intros Hmove.
  pose proof (proj1 (makeMove_true i sid r) Hmove) as (Hst & Hcell & _).
  apply at_index_Some_None in Hcell as [Hi Hcell].
  rewrite (makeMove_result i sid r Hmove). simpl.
  destruct (bool_decide (is_Some _) || bool_decide _) eqn:Hend; simpl;
    (split; [apply list_lookup_insert_eq; by eapply lookup_lt_Some|]);
    (split; [intros j Hj; by apply list_lookup_insert_ne|]);
    (split; [apply length_insert|]); (split; [done|]); (split; [done|]).
  - by left.
  - right. split_and!; [done| |done].
    apply orb_false_iff in Hend as [H1 _]. apply bool_decide_eq_false in H1.
    by apply eq_None_not_Some.
Qed.

Lemma makeMove_changes_one_cell_witness :
  GameRoom.board (GameRoom.makeMove 4 "A" room_AB).2 !! 4 = Some (Some X).
Proof.
  exact (proj1 (makeMove_changes_one_cell room_AB 4 "A" eq_refl)).
Defined.

(** ** Keys of the room registry *)

Lemma JsMap_keys_set {V} k (v : V) (m : JsMap.t V) :
  fst <$> JsMap.set k v m
  = if bool_decide (k ∈ fst <$> m) then fst <$> m else (fst <$> m) ++ [k].
Proof.
  induction m as [|[k' v'] m IH]; csimpl; [done|].
  destruct (String.eqb_spec k k') as [->|Hne]; csimpl.
  - rewrite bool_decide_eq_true_2 by left. done.
  - rewrite IH. case_bool_decide as Hin.
    + rewrite bool_decide_eq_true_2 by by right. done.
    + rewrite bool_decide_eq_false_2; [done|].
      by intros [?|?]%elem_of_cons.
Qed.

Lemma JsMap_keys_delete {V} k (m : JsMap.t V) :
  fst <$> JsMap.delete k m = filter (λ k', k' ≠ k) (fst <$> m).
Proof.
  induction m as [|[k' v'] m IH]; csimpl; [done|].
  rewrite filter_cons. destruct (String.eqb_spec k k') as [->|Hne]; csimpl.
  - by rewrite decide_False by (by intros ?).
  - rewrite decide_True by done. by rewrite IH.
Qed.

Lemma JsMap_NoDup_set {V} k (v : V) (m : JsMap.t V) :
  NoDup (fst <$> m) → NoDup (fst <$> JsMap.set k v m).
Proof.
  intros H. rewrite JsMap_keys_set. case_bool_decide as Hin; [done|].
  apply NoDup_app. split_and!; [done | | apply NoDup_singleton].
  intros x Hx ->%list_elem_of_singleton. done.
Qed.

Lemma JsMap_NoDup_delete {V} k (m : JsMap.t V) :
  NoDup (fst <$> m) → NoDup (fst <$> JsMap.delete k m).
Proof. intros H. rewrite JsMap_keys_delete. by apply NoDup_filter. Qed.

Lemma JsMap_get_None {V} k (m : JsMap.t V) :
  JsMap.get k m = None ↔ ¬ (k ∈ fst <$> m).
Proof.
  induction m as [|[k' v'] m IH]; csimpl.
  - split; [|done]. intros _ H. inversion H.
  - destruct (String.eqb_spec k k') as [->|Hne].
    + split; [done|]. intros H. destruct H. left.
    + rewrite IH. rewrite elem_of_cons. tauto.
Qed.

Lemma JsMap_get_elem {V} k (v : V) (m : JsMap.t V) :
  NoDup (fst <$> m) → ((k, v) ∈ m ↔ JsMap.get k m = Some v).
Proof.
  induction m as [|[k' v'] m IH]; csimpl; intros Hnd.
  - split; [|done]. intros H. inversion H.
  - apply NoDup_cons in Hnd as [Hnotin Hnd].
    rewrite elem_of_cons. destruct (String.eqb_spec k k') as [->|Hne].
    + split.
      * intros [[= ->]|Hin]; [done|]. destruct Hnotin.
        apply list_elem_of_fmap. by exists (k', v).
      * intros [= ->]. by left.
    + rewrite <- IH by done. split; [|by right].
      intros [[= -> ->]|Hin]; done.
Qed.

Lemma JsMap_delete_set_fresh {V} k (v : V) (m : JsMap.t V) :
  JsMap.get k m = None → JsMap.delete k (JsMap.set k v m) = m.
Proof.
  induction m as [|[k' v'] m IH]; simpl.
  - by rewrite String.eqb_refl.
  - destruct (String.eqb_spec k k') as [->|Hne]; [done|]. simpl.
    intros H. destruct (String.eqb_spec k k'); [done|]. by rewrite IH.
Qed.

Lemma JsMap_set_set {V} k (v v' : V) (m : JsMap.t V) :
  JsMap.set k v' (JsMap.set k v m) = JsMap.set k v' m.
Proof.
  induction m as [|[k0 v0] m IH]; simpl.
  - by rewrite String.eqb_refl.
  - destruct (String.eqb_spec k k0) as [->|Hne]; simpl.
    + by rewrite String.eqb_refl.
    + destruct (String.eqb_spec k k0); [done|]. by rewrite IH.
Qed.

Lemma room_step_id r r' : room_step r r' → GameRoom.id r' = GameRoom.id r.
Proof.
  intros [sid nm r0 Hlen Hst | i sid r0 Hmove | r0 Hst Hlen | sid r0].
  - unfold GameRoom.addPlayer. repeat case_bool_decide; done.
  - rewrite (makeMove_result i sid r0 Hmove). simpl.
    by destruct (bool_decide _ || bool_decide _).
  - done.
  - unfold GameRoom.removePlayer. by case_bool_decide.
Qed.

Lemma departure_rooms_get rid0 rid sid room (rs : JsMap.t GameRoom.t) r' :
  JsMap.get rid0 rs = Some room →
  JsMap.get rid
    (if bool_decide (length (GameRoom.players (GameRoom.removePlayer sid room)) = 0)
     then JsMap.delete rid0 (JsMap.set rid0 (GameRoom.removePlayer sid room) rs)
     else JsMap.set rid0 (GameRoom.removePlayer sid room) rs) = Some r' →
  JsMap.get rid rs = Some r'
  ∨ ∃ r, JsMap.get rid rs = Some r ∧ GameRoom.id r' = GameRoom.id r.
Proof.
  intros Hget H0.
  destruct (leave_rooms_get rid0 rid sid room rs r' Hget H0)
    as [H | [H | (r & Hr & Hstep)]].
  - by left.
  - right. destruct (decide (rid0 = rid)) as [->|Hne].
    + exists room. split; [done|]. revert H0. case_bool_decide.
      * by rewrite JsMap_get_delete_eq.
      * rewrite JsMap_get_set_eq. intros [= <-].
        by apply room_step_id, step_leave.
    + exists r'. split; [|done]. revert H0. case_bool_decide.
      * by rewrite JsMap_get_delete_ne, JsMap_get_set_ne.
      * by rewrite JsMap_get_set_ne.
  - right. exists r. split; [done|]. by apply room_step_id.
Qed.

(** An event keeps every room under its own id. *)
Lemma handle_room_ids e st :
  (∀ k r, JsMap.get k (rooms st) = Some r → GameRoom.id r = k) →
  ∀ k r, JsMap.get k (rooms (handle e st).1) = Some r → GameRoom.id r = k.
Proof.
  intros Hids rid r'.
  assert (Hstep : (JsMap.get rid (rooms st) = Some r'
                   ∨ ∃ r, JsMap.get rid (rooms st) = Some r
                          ∧ GameRoom.id r' = GameRoom.id r) →
                  GameRoom.id r' = rid).
  { intros [H | (r & Hr & ->)]; eauto. }
  destruct e as [sid nm | sid k pub nm | sid k nm | sid k i | sid k | sid | sid]; simpl.
  - apply Hids.
  - get_set k rid; [|apply Hids]. by intros [= <-].
  - intros H. apply (handle_room (JoinRoom sid k nm)) in H as H'.
    destruct H' as [H' | [H' | (r & Hr & Hs)]]; [by apply Hids | | ].
    + revert H. unfold join_room.
      destruct (JsMap.get k (rooms st)) as [room|] eqn:Hget; [|apply Hids].
      case_bool_decide; [apply Hids|].
      destruct (bool_decide _ || bool_decide _); [apply Hids|]. simpl.
      get_set k rid; [|apply Hids]. intros [= <-].
      rewrite <- (Hids _ _ Hget). unfold GameRoom.addPlayer.
      repeat case_bool_decide; done.
    + rewrite (room_step_id _ _ Hs). by apply Hids.
  - intros H. apply (handle_room (MakeMove sid k i)) in H as H'.
    destruct H' as [H' | [H' | (r & Hr & Hs)]]; [by apply Hids | | ].
    + revert H. unfold make_move.
      destruct (JsMap.get k (rooms st)) as [room|] eqn:Hget; [|apply Hids].
      destruct (GameRoom.makeMove i sid room) as [ok room'] eqn:Hmove.
      destruct ok; [|apply Hids]. simpl. get_set k rid; [|apply Hids].
      intros [= <-]. rewrite <- (Hids _ _ Hget).
      replace room' with (GameRoom.makeMove i sid room).2 by by rewrite Hmove.
      apply room_step_id, step_move. by rewrite Hmove.
    + rewrite (room_step_id _ _ Hs). by apply Hids.
  - intros H. apply (handle_room (RequestRematch sid k)) in H as H'.
    destruct H' as [H' | [H' | (r & Hr & Hs)]]; [by apply Hids | | ].
    + revert H. unfold request_rematch.
      destruct (JsMap.get k (rooms st)) as [room|] eqn:Hget; [|apply Hids].
      case_bool_decide; [apply Hids|]. case_bool_decide; [|apply Hids].
      destruct (forallb _ _); [|apply Hids]. simpl.
      get_set k rid; [|apply Hids]. intros [= <-]. simpl. by apply Hids.
    + rewrite (room_step_id _ _ Hs). by apply Hids.
  - unfold leave_room. destruct (players st !! sid) as [player|]; [|apply Hids].
    destruct (bound_room player) as [k|]; [|apply Hids].
    destruct (JsMap.get k (rooms st)) as [room|] eqn:Hget; [|apply Hids].
    simpl. intros H. by apply Hstep, (departure_rooms_get k rid sid room).
  - unfold disconnect. destruct (players st !! sid) as [player|]; [|apply Hids].
    destruct (bound_room player) as [k|]; [|apply Hids].
    destruct (JsMap.get k (rooms st)) as [room|] eqn:Hget; [|apply Hids].
    intros H. apply Hstep, (departure_rooms_get k rid sid room); [done|].
    revert H. by case_bool_decide.
Qed.

Lemma departure_keys sid k room (rs : JsMap.t GameRoom.t) :
  NoDup (fst <$> rs) →
  NoDup (fst <$>
    (if bool_decide (length (GameRoom.players (GameRoom.removePlayer sid room)) = 0)
     then JsMap.delete k (JsMap.set k (GameRoom.removePlayer sid room) rs)
     else JsMap.set k (GameRoom.removePlayer sid room) rs)).
Proof.
  intros H. case_bool_decide.
  - by apply JsMap_NoDup_delete, JsMap_NoDup_set.
  - by apply JsMap_NoDup_set.
Qed.

(** An event keeps the keys of the registry distinct. *)
Lemma handle_room_keys e st :
  NoDup (fst <$> rooms st) → NoDup (fst <$> rooms (handle e st).1).
Proof.
  intros Hnd.
  destruct e as [sid nm | sid k pub nm | sid k nm | sid k i | sid k | sid | sid]; simpl.
  - done.
  - by apply JsMap_NoDup_set.
  - unfold join_room. destruct (JsMap.get k (rooms st)) as [room|]; [|done].
    case_bool_decide; [done|]. destruct (bool_decide _ || bool_decide _); [done|].
    by apply JsMap_NoDup_set.
  - unfold make_move. destruct (JsMap.get k (rooms st)) as [room|]; [|done].
    destruct (GameRoom.makeMove i sid room) as [[] room']; [|done].
    by apply JsMap_NoDup_set.
  - unfold request_rematch. destruct (JsMap.get k (rooms st)) as [room|]; [|done].
    case_bool_decide; [done|]. case_bool_decide; [|done].
    destruct (forallb _ _); [|done]. by apply JsMap_NoDup_set.
  - unfold leave_room. destruct (players st !! sid) as [player|]; [|done].
    destruct (bound_room player) as [k|]; [|done].
    destruct (JsMap.get k (rooms st)) as [room|]; [|done].
    simpl. by apply departure_keys.
  - unfold disconnect. destruct (players st !! sid) as [player|]; [|done].
    destruct (bound_room player) as [k|]; [|done].
    destruct (JsMap.get k (rooms st)) as [room|]; [|done].
    pose proof (departure_keys sid k room (rooms st) Hnd) as H.
    revert H. by case_bool_decide.
Qed.

Lemma reachable_registry_ok st : reachable st → registry_ok st.
Proof.
  induction 1 as [|st e Hreach [Hnd Hids]].
  - split; [constructor | done].
  - split; [by apply handle_room_keys | by apply handle_room_ids].
Qed.

(** ** The lobby listing and join-room *)

Lemma addPlayer_isPublic sid nm r :
  GameRoom.isPublic (GameRoom.addPlayer sid nm r).2 = GameRoom.isPublic r.
Proof. unfold GameRoom.addPlayer. repeat case_bool_decide; done. Qed.

Lemma join_room_success sid k nm st room :
  JsMap.get k (rooms st) = Some room →
  length (GameRoom.players room) < 2 →
  GameRoom.status room = waiting →
  (join_room sid k nm st).1
  = mkServer (JsMap.set k (GameRoom.addPlayer sid nm room).2 (rooms st))
             (set_roomId sid (Some k) (players st))
  ∧ emits (join_room sid k nm st).2
    = (ToSocket sid, room_joined k)
      :: (ToRoom k, game_state (snapshot (GameRoom.addPlayer sid nm room).2))
      :: (if GameRoom.isPublic room
          then [(ToAll, public_rooms (getPublicRooms
                   (JsMap.set k (GameRoom.addPlayer sid nm room).2 (rooms st))))]
          else []).
Proof.
  intros Hget Hlen Hst. unfold join_room. rewrite Hget, Hst.
  rewrite bool_decide_eq_false_2 by lia. simpl. split; [done|].
  unfold updateRoomState. simpl. rewrite JsMap_get_set_eq, addPlayer_isPublic.
  by destruct (GameRoom.isPublic room).
Qed.

Lemma listed_room st o :
  reachable st →
  o ∈ getPublicRooms (rooms st) ↔
  ∃ k room, JsMap.get k (rooms st) = Some room
            ∧ GameRoom.isPublic room = true
            ∧ GameRoom.status room = waiting
            ∧ GameRoom.id room = k
            ∧ length (GameRoom.players room) ≤ 1
            ∧ o = getPublicInfo room.
Proof.
  intros Hreach. destruct (reachable_registry_ok st Hreach) as [Hnd Hids].
  rewrite getPublicRooms_filter, list_elem_of_fmap. split.
  - intros (room & -> & [[Hp Hs] Hin]%list_elem_of_filter).
    apply list_elem_of_fmap in Hin as ([k room'] & -> & Hin). simpl in *.
    apply JsMap_get_elem in Hin; [|done].
    destruct (reachable_room_ok st k room' Hreach Hin) as [_ _ Hwait _ _ _ _ _ _].
    destruct (Hwait Hs) as (_ & _ & Hlen & _).
    exists k, room'. split_and!; try done. by apply Hids.
  - intros (k & room & Hget & Hp & Hs & _ & _ & ->). exists room. split; [done|].
    apply list_elem_of_filter. split; [done|].
    apply list_elem_of_fmap. exists (k, room). split; [done|].
    by apply JsMap_get_elem.
Qed.

(** On a reachable registry the lobby listing consists of exactly the
    summaries of the stored rooms that are public and waiting; the [id] of a
    summary is the key the room is stored under, and its [playersCount] is
    0 or 1. *)
Theorem reachable_listing (st : Server) (o : list (string * JsValue)) :
  reachable st →
  o ∈ getPublicRooms (rooms st) ↔
  ∃ k room n, JsMap.get k (rooms st) = Some room
              ∧ GameRoom.isPublic room = true
              ∧ GameRoom.status room = waiting
              ∧ o = getPublicInfo room
              ∧ prop "id" o = Some (JStr k)
              ∧ prop "playersCount" o = Some (JNum n) ∧ n ≤ 1.
Proof.
  intros Hreach. rewrite (listed_room st o Hreach). split.
  - intros (k & room & Hget & Hp & Hs & Hid & Hlen & ->).
    exists k, room, (length (GameRoom.players room)).
    split_and!; try done. unfold prop. simpl. by rewrite Hid.
  - intros (k & room & n & Hget & Hp & Hs & -> & Hid & _).
    destruct (reachable_registry_ok st Hreach) as [_ Hids].
    destruct (reachable_room_ok st k room Hreach Hget) as [_ _ Hwait _ _ _ _ _ _].
    destruct (Hwait Hs) as (_ & _ & Hlen & _).
    exists k, room. split_and!; try done. by apply Hids.
Qed.

Lemma reachable_listing_witness :
  getPublicInfo room_A ∈ getPublicRooms (rooms lobby_with_open_room).
Proof.
  apply (reachable_listing lobby_with_open_room (getPublicInfo room_A)).
  - apply (reachable_run [JoinLobby "A" "alice"; CreateRoom "A" "R1" true "alice"] init).
    constructor.
  - exists "R1", room_A, 1. split_and!; (reflexivity || lia).
Defined.

(** On a reachable registry every room of the lobby listing can be joined:
    a ['join-room'] naming the listed [id] is answered with ['room-joined']
    and no ['error'], and the caller is then seated in that room. *)
Theorem listed_room_joinable
    (st : Server) (o : list (string * JsValue)) (sid nm : string) :
  reachable st →
  o ∈ getPublicRooms (rooms st) →
  ∃ k room',
    prop "id" o = Some (JStr k)
    ∧ (ToSocket sid, room_joined k) ∈ emits (join_room sid k nm st).2
    ∧ (∀ to msg, ¬ ((to, error msg) ∈ emits (join_room sid k nm st).2))
    ∧ JsMap.get k (rooms (join_room sid k nm st).1) = Some room'
    ∧ sid ∈ GameRoom.socketId <$> GameRoom.players room'.
Proof.
  intros Hreach Ho.
  apply (listed_room st o Hreach) in Ho
    as (k & room & Hget & Hp & Hs & Hid & Hlen & ->).
  destruct (join_room_success sid k nm st room Hget ltac:(lia) Hs) as [Hst Hout].
  exists k, (GameRoom.addPlayer sid nm room).2. split_and!.
  - unfold prop. simpl. by rewrite Hid.
  - rewrite Hout. left.
  - intros to msg. rewrite Hout, Hp. intros H.
    repeat (apply elem_of_cons in H as [[=]|H]). by apply elem_of_nil in H.
  - rewrite Hst. simpl. apply JsMap_get_set_eq.
  - destruct (GameRoom.players room) as [|p [|q l]] eqn:E; [| |simpl in Hlen; lia].
    + rewrite addPlayer_first by by rewrite E. simpl. left.
    + rewrite addPlayer_second by by rewrite E. simpl. rewrite E. simpl. right. left.
Qed.

Lemma listed_room_joinable_witness :
  ∃ k room',
    prop "id" (getPublicInfo room_A) = Some (JStr k)
    ∧ (ToSocket "B", room_joined k)
      ∈ emits (join_room "B" k "bob" lobby_with_open_room).2
    ∧ (∀ to msg, ¬ ((to, error msg)
                    ∈ emits (join_room "B" k "bob" lobby_with_open_room).2))
    ∧ JsMap.get k (rooms (join_room "B" k "bob" lobby_with_open_room).1) = Some room'
    ∧ "B" ∈ GameRoom.socketId <$> GameRoom.players room'.
Proof.
  apply (listed_room_joinable lobby_with_open_room (getPublicInfo room_A) "B" "bob").
  - apply (reachable_run [JoinLobby "A" "alice"; CreateRoom "A" "R1" true "alice"] init).
    constructor.
  - left.
Defined.

(** On a reachable registry, once a second player has joined a waiting
    room, no summary of the lobby listing carries that room's id any
    more. *)
Theorem second_join_unlists
    (st : Server) (k sid nm : string) (room : GameRoom.t) (p : GameRoom.PlayerEntry) :
  reachable st →
  JsMap.get k (rooms st) = Some room →
  GameRoom.status room = waiting →
  GameRoom.players room = [p] →
  Forall (λ o, prop "id" o ≠ Some (JStr k))
         (getPublicRooms (rooms (join_room sid k nm st).1)).
Proof.
  intros Hreach Hget Hs Hp. apply Forall_forall. intros o Ho.
  assert (Hreach' : reachable (join_room sid k nm st).1)
    by apply (reachable_step st (JoinRoom sid k nm) Hreach).
  apply (listed_room _ o Hreach') in Ho
    as (k' & room' & Hget' & _ & Hs' & Hid & _ & ->).
  unfold prop. simpl. rewrite Hid. intros [= ->].
  destruct (join_room_second_seat sid k nm st room p Hget Hs Hp) as [Hroom _].
  rewrite Hroom in Hget'. injection Hget' as <-. discriminate Hs'.
Qed.

Lemma second_join_unlists_witness :
  Forall (λ o, prop "id" o ≠ Some (JStr "R1"))
         (getPublicRooms (rooms (join_room "B" "R1" "bob" lobby_with_open_room).1)).
Proof.
  apply (second_join_unlists lobby_with_open_room "R1" "B" "bob" room_A
           (GameRoom.mkEntry "A" "alice" X)); try reflexivity.
  apply (reachable_run [JoinLobby "A" "alice"; CreateRoom "A" "R1" true "alice"] init).
  constructor.
Defined.

(** ** What an event leaves alone *)

(** An event changes no room but the one it addresses: the room named in
    its payload, or for ['leave-room'] and ['disconnect'] the room the
    caller's record is bound to; ['join-lobby'] changes no room at all. *)
Theorem handle_other_rooms_untouched (e : Event) (st : Server) (k : string) :
  event_room e st ≠ Some k →
  JsMap.get k (rooms (handle e st).1) = JsMap.get k (rooms st).
Proof.
  intros Hk.
  destruct e as [sid nm | sid k0 pub nm | sid k0 nm | sid k0 i | sid k0 | sid | sid];
    simpl in *.
  - done.
  - apply JsMap_get_set_ne. congruence.
  - unfold join_room. destruct (JsMap.get k0 (rooms st)) as [room|]; [|done].
    case_bool_decide; [done|]. destruct (bool_decide _ || bool_decide _); [done|].
    apply JsMap_get_set_ne. congruence.
  - unfold make_move. destruct (JsMap.get k0 (rooms st)) as [room|]; [|done].
    destruct (GameRoom.makeMove i sid room) as [[] room']; [|done].
    apply JsMap_get_set_ne. congruence.
  - unfold request_rematch. destruct (JsMap.get k0 (rooms st)) as [room|]; [|done].
    case_bool_decide; [done|]. case_bool_decide; [|done].
    destruct (forallb _ _); [|done]. apply JsMap_get_set_ne. congruence.
  - unfold leave_room. destruct (players st !! sid) as [player|]; [|done].
    simpl in Hk. destruct (bound_room player) as [k0|]; [|done].
    destruct (JsMap.get k0 (rooms st)) as [room|]; [|done]. simpl.
    assert (k0 ≠ k) by congruence.
    case_bool_decide; by rewrite ?JsMap_get_delete_ne, JsMap_get_set_ne.
  - unfold disconnect. destruct (players st !! sid) as [player|]; [|done].
    simpl in Hk. destruct (bound_room player) as [k0|]; [|done].
    destruct (JsMap.get k0 (rooms st)) as [room|]; [|done].
    assert (k0 ≠ k) by congruence.
    case_bool_decide; simpl; by rewrite ?JsMap_get_delete_ne, JsMap_get_set_ne.
Qed.

Lemma handle_other_rooms_untouched_witness :
  JsMap.get "R1" (rooms (handle (CreateRoom "B" "R2" true "bob") lobby_with_open_room).1)
  = JsMap.get "R1" (rooms lobby_with_open_room).
Proof.
  apply (handle_other_rooms_untouched (CreateRoom "B" "R2" true "bob")).
  simpl. discriminate.
Defined.


Lemma set_ready_other sid sid' v (ps : gmap string PlayerInfo) :
  sid ≠ sid' → set_ready sid v ps !! sid' = ps !! sid'.
Proof.
  intros Hne. unfold set_ready. destruct (ps !! sid); [|done].
  by apply lookup_insert_ne.
Qed.

Lemma clear_ready_other sid' (l : list GameRoom.PlayerEntry) (ps : gmap string PlayerInfo) :
  ¬ (sid' ∈ GameRoom.socketId <$> l) →
  foldl (λ ps p, set_ready (GameRoom.socketId p) false ps) ps l !! sid' = ps !! sid'.
Proof.
  revert ps. induction l as [|p l IH]; intros ps Hnot; simpl; [done|].
  rewrite fmap_cons, not_elem_of_cons in Hnot. destruct Hnot as [Hne Hnot].
  rewrite IH by done. by apply set_ready_other.
Qed.



(** ** Outcomes of make-move and join-room *)

(** ['make-move'] is silent unless the move is legal: when the room does
    not exist or [makeMove] refuses, both registries stay as they are and
    nothing is emitted, not even an error; when [makeMove] accepts, the room
    is replaced by the room after the move, the players' records are
    untouched and the only emit is the new state to the room. *)
Theorem make_move_silent_or_broadcast (sid k : string) (i : Z) (st : Server) :
  (JsMap.get k (rooms st) = None → make_move sid k i st = (st, []))
  ∧ (∀ room, JsMap.get k (rooms st) = Some room →
       (GameRoom.makeMove i sid room).1 = false → make_move sid k i st = (st, []))
  ∧ (∀ room, JsMap.get k (rooms st) = Some room →
       (GameRoom.makeMove i sid room).1 = true →
       make_move sid k i st
       = (mkServer (JsMap.set k (GameRoom.makeMove i sid room).2 (rooms st)) (players st),
          [Emit (ToRoom k) (game_state (snapshot (GameRoom.makeMove i sid room).2))]))
  ∧ ((make_move sid k i st).2 = [] → (make_move sid k i st).1 = st)
  ∧ (∀ to msg, ¬ ((to, error msg) ∈ emits (make_move sid k i st).2)).
Proof.
  unfold make_move. destruct (JsMap.get k (rooms st)) as [room|] eqn:Hget.
  - destruct (GameRoom.makeMove i sid room) as [[] room'] eqn:Hmove; simpl.
    + unfold updateRoomState. simpl. rewrite JsMap_get_set_eq.
      split_and!; try done.
      * intros ? [= <-]. by rewrite Hmove.
      * intros ? [= <-] _. by rewrite Hmove.
      * intros to msg H. apply elem_of_cons in H as [[=]|H]. by apply elem_of_nil in H.
    + split_and!; try done.
      * intros ? [= <-]. by rewrite Hmove.
      * intros to msg H. by apply elem_of_nil in H.
  - split_and!; try done. intros to msg H. by apply elem_of_nil in H.
Qed.

(** On a reachable registry ['join-room'] succeeds exactly on the rooms
    that exist and are waiting.  A room id that is not stored is answered
    with "Room not found"; a stored room that is not waiting with "Room is
    full" when it has two players and with "Game already in progress" when
    it has fewer (a room that lost a player keeps its status); every error
    leaves both registries as they are. *)
Theorem join_room_outcome (sid k nm : string) (st : Server) :
  reachable st →
  (JsMap.get k (rooms st) = None →
   join_room sid k nm st = (st, [Emit (ToSocket sid) (error "Room not found")]))
  ∧ (∀ room, JsMap.get k (rooms st) = Some room →
       GameRoom.status room ≠ waiting → length (GameRoom.players room) = 2 →
       join_room sid k nm st = (st, [Emit (ToSocket sid) (error "Room is full")]))
  ∧ (∀ room, JsMap.get k (rooms st) = Some room →
       GameRoom.status room ≠ waiting → length (GameRoom.players room) ≠ 2 →
       join_room sid k nm st
       = (st, [Emit (ToSocket sid) (error "Game already in progress")]))
  ∧ (∀ room, JsMap.get k (rooms st) = Some room →
       GameRoom.status room = waiting →
       (join_room sid k nm st).1
       = mkServer (JsMap.set k (GameRoom.addPlayer sid nm room).2 (rooms st))
                  (set_roomId sid (Some k) (players st))
       ∧ (GameRoom.addPlayer sid nm room).1 = true
       ∧ (ToSocket sid, room_joined k) ∈ emits (join_room sid k nm st).2
       ∧ ∀ to msg, ¬ ((to, error msg) ∈ emits (join_room sid k nm st).2)).
Proof.
  intros Hreach. split_and!.
  - intros Hget. unfold join_room. by rewrite Hget.
  - intros room Hget Hst Hlen. unfold join_room. rewrite Hget.
    by rewrite bool_decide_eq_true_2 by lia.
  - intros room Hget Hst Hlen.
    destruct (reachable_room_ok st k room Hreach Hget) as [_ Hseats _ _ _ _ _ _ _].
    unfold join_room. rewrite Hget.
    rewrite bool_decide_eq_false_2 by lia.
    by destruct (GameRoom.status room).
  - intros room Hget Hst.
    destruct (reachable_room_ok st k room Hreach Hget) as [_ _ Hwait _ _ _ _ _ _].
    destruct (Hwait Hst) as (_ & _ & Hlen & _).
    destruct (join_room_success sid k nm st room Hget ltac:(lia) Hst) as [Hst' Hout].
    split_and!; [done | | rewrite Hout; left |].
    + unfold GameRoom.addPlayer. by rewrite bool_decide_eq_false_2 by lia.
    + intros to msg. rewrite Hout. intros H.
      apply elem_of_cons in H as [[=]|H]. apply elem_of_cons in H as [[=]|H].
      destruct (GameRoom.isPublic room);
        [apply elem_of_cons in H as [[=]|H]|]; by apply elem_of_nil in H.
Qed.

Lemma join_room_outcome_witness :
  join_room "B" "R9" "bob" lobby_with_open_room
  = (lobby_with_open_room, [Emit (ToSocket "B") (error "Room not found")]).
Proof.
  refine (proj1 (join_room_outcome "B" "R9" "bob" lobby_with_open_room _) eq_refl).
  apply (reachable_run [JoinLobby "A" "alice"; CreateRoom "A" "R1" true "alice"] init).
  constructor.
Defined.

(** ** Creating and leaving a room *)

(** A connection with a Player record that creates a room under a fresh,
    non-empty id and then leaves, or disconnects, leaves the room registry
    exactly as it was before the room was created; after leave-room its
    record is unbound again, after disconnect it is gone. *)
Theorem create_then_depart_restores_rooms
    (sid k : string) (pub : bool) (nm : string) (st : Server) (p : PlayerInfo) :
  players st !! sid = Some p →
  truthy k = true →
  JsMap.get k (rooms st) = None →
  rooms (leave_room sid (create_room sid k pub nm st).1).1 = rooms st
  ∧ players (leave_room sid (create_room sid k pub nm st).1).1
    = <[sid := mkPlayer (name p) None (readyForRematch p)]> (players st)
  ∧ rooms (disconnect sid (create_room sid k pub nm st).1).1 = rooms st
  ∧ players (disconnect sid (create_room sid k pub nm st).1).1
    = delete sid (players st).
Proof.
  intros Hp Hk Hfresh.
  assert (Hempty : GameRoom.removePlayer sid
            (GameRoom.addPlayer sid nm (GameRoom.new k pub sid)).2
          = GameRoom.new k pub sid).
  { unfold GameRoom.removePlayer. simpl.
    rewrite filter_cons_False by (simpl; tauto). done. }
  assert (Hrooms : JsMap.delete k
            (JsMap.set k (GameRoom.new k pub sid)
               (JsMap.set k (GameRoom.addPlayer sid nm (GameRoom.new k pub sid)).2
                  (rooms st))) = rooms st).
  { by rewrite JsMap_set_set, JsMap_delete_set_fresh. }
  unfold leave_room, disconnect, create_room. cbn [fst snd rooms players].
  unfold set_roomId. rewrite Hp, !lookup_insert_eq. unfold bound_room.
  cbn [roomId name readyForRematch]. rewrite Hk, JsMap_get_set_eq, Hempty.
  cbn [GameRoom.new GameRoom.players length].
  rewrite bool_decide_eq_true_2 by done. cbn [fst snd rooms players].
  rewrite Hrooms, insert_insert_eq, delete_insert_eq. done.
Qed.

Lemma create_then_depart_restores_rooms_witness :
  rooms (leave_room "A"
           (create_room "A" "R1" true "alice" (join_lobby "A" "alice" init).1).1).1
  = rooms (join_lobby "A" "alice" init).1.
Proof.
  exact (proj1 (create_then_depart_restores_rooms "A" "R1" true "alice"
                  (join_lobby "A" "alice" init).1 (mkPlayer "alice" None false)
                  eq_refl eq_refl eq_refl)).
Defined.

(** A connection that never entered the lobby has no Player record, and
    ['create-room'] does not make one: the room it creates is stored with
    the caller seated, but neither ['leave-room'] nor ['disconnect'] of that
    connection removes the caller from it or deletes it, and neither emits
    anything. *)
Theorem room_created_without_record_stays
    (sid k : string) (pub : bool) (nm : string) (st : Server) :
  players st !! sid = None →
  JsMap.get k (rooms (create_room sid k pub nm st).1)
  = Some (GameRoom.with_players [GameRoom.mkEntry sid nm X] (GameRoom.new k pub sid))
  ∧ players (create_room sid k pub nm st).1 = players st
  ∧ leave_room sid (create_room sid k pub nm st).1
    = ((create_room sid k pub nm st).1, [])
  ∧ rooms (disconnect sid (create_room sid k pub nm st).1).1
    = rooms (create_room sid k pub nm st).1
  ∧ (disconnect sid (create_room sid k pub nm st).1).2 = [].
Proof.
  intros Hp. unfold leave_room, disconnect, create_room. simpl.
  unfold set_roomId. rewrite Hp. simpl. rewrite Hp, JsMap_get_set_eq. done.
Qed.

Lemma room_created_without_record_stays_witness :
  leave_room "A" (create_room "A" "R1" true "alice" init).1
  = ((create_room "A" "R1" true "alice" init).1, []).
Proof.
  exact (proj1 (proj2 (proj2
    (room_created_without_record_stays "A" "R1" true "alice" init eq_refl)))).
Defined.

(** The same happens to a connection whose room id is the empty string,
    which [generateRoomId] returns when the random string has no digits
    after its first two characters: the record's [roomId] is falsy, so
    ['leave-room'] returns at once and ['disconnect'] only deletes the
    record. *)
Theorem empty_room_id_cannot_be_left
    (sid : string) (pub : bool) (nm : string) (st : Server) :
  leave_room sid (create_room sid EmptyString pub nm st).1
  = ((create_room sid EmptyString pub nm st).1, [])
  ∧ rooms (disconnect sid (create_room sid EmptyString pub nm st).1).1
    = rooms (create_room sid EmptyString pub nm st).1
  ∧ JsMap.get EmptyString (rooms (create_room sid EmptyString pub nm st).1)
    = Some (GameRoom.with_players [GameRoom.mkEntry sid nm X]
              (GameRoom.new EmptyString pub sid)).
Proof.
  unfold leave_room, disconnect, create_room. simpl. unfold set_roomId.
  rewrite JsMap_get_set_eq.
  destruct (players st !! sid) as [p|] eqn:Hp; simpl.
  - rewrite !lookup_insert_eq. done.
  - rewrite Hp. done.
Qed.

(** ** A completed rematch *)

Lemma clear_ready_seated sid' (l : list GameRoom.PlayerEntry) (ps : gmap string PlayerInfo) :
  sid' ∈ GameRoom.socketId <$> l →
  is_ready (foldl (λ ps p, set_ready (GameRoom.socketId p) false ps) ps l) sid' = false.
Proof.
  revert ps. induction l as [|p l IH]; intros ps Hin; simpl.
  - by apply elem_of_nil in Hin.
  - destruct (decide (sid' ∈ GameRoom.socketId <$> l)) as [Hl|Hl]; [by apply IH|].
    rewrite fmap_cons in Hin. apply elem_of_cons in Hin as [->|Hin]; [|done].
    unfold is_ready. rewrite clear_ready_other by done.
    unfold set_ready. destruct (ps !! GameRoom.socketId p) as [q|] eqn:E.
    + by rewrite lookup_insert_eq.
    + by rewrite E.
Qed.

(** When ['request-rematch'] completes a rematch (the room named is
    finished, has two players, and with the caller's flag set both seated
    connections are ready), the room is reset with its seats kept and is
    playing again, and the [readyForRematch] flag of every seated connection
    is cleared.  In the registries right after that reset, while the room is
    still playing, a ['request-rematch'] for it by any connection returns at
    once: it changes nothing, sets no flag and emits nothing.  (Once the
    next game is finished a request sets the caller's flag again.) *)
Theorem rematch_resets_and_clears_flags
    (sid k : string) (st : Server) (room : GameRoom.t) :
  JsMap.get k (rooms st) = Some room →
  GameRoom.status room = finished →
  length (GameRoom.players room) = 2 →
  forallb (λ p, is_ready (set_ready sid true (players st)) (GameRoom.socketId p))
          (GameRoom.players room) = true →
  JsMap.get k (rooms (request_rematch sid k st).1)
  = Some (GameRoom.mk (GameRoom.id room) (GameRoom.isPublic room)
            (GameRoom.creatorId room) (GameRoom.players room)
            empty_board X playing None 0)
  ∧ Forall (λ p, is_ready (players (request_rematch sid k st).1)
                          (GameRoom.socketId p) = false)
           (GameRoom.players room)
  ∧ (∀ sid', request_rematch sid' k (request_rematch sid k st).1
             = ((request_rematch sid k st).1, [])).
Proof.
  intros Hget Hfin Hlen Hall.
  assert (Hst : (request_rematch sid k st).1
    = mkServer (JsMap.set k (GameRoom.reset room) (rooms st))
        (foldl (λ ps p, set_ready (GameRoom.socketId p) false ps)
               (set_ready sid true (players st)) (GameRoom.players room))).
  { unfold request_rematch. rewrite Hget.
    rewrite bool_decide_eq_false_2 by (by intros []).
    rewrite bool_decide_eq_true_2 by done. by rewrite Hall. }
  rewrite Hst. simpl. split_and!.
  - rewrite JsMap_get_set_eq. unfold GameRoom.reset.
    by rewrite bool_decide_eq_true_2 by done.
  - apply Forall_forall. intros p Hp. apply clear_ready_seated.
    by apply list_elem_of_fmap_2.
  - intros sid'. unfold request_rematch. simpl. rewrite JsMap_get_set_eq. simpl.
    rewrite (bool_decide_eq_true_2 (length _ = 2)) by done.
    by rewrite bool_decide_eq_true_2 by done.
Qed.

Lemma rematch_resets_and_clears_flags_witness :
  JsMap.get "R1" (rooms (request_rematch "B" "R1" (run rematch_asked_trace init).1).1)
  = Some (GameRoom.mk "R1" true "A"
            [GameRoom.mkEntry "A" "alice" X; GameRoom.mkEntry "B" "bob" O]
            empty_board X playing None 0).
Proof.
  exact (proj1 (rematch_resets_and_clears_flags "B" "R1"
                  (run rematch_asked_trace init).1 room_won
                  eq_refl eq_refl eq_refl eq_refl)).
Defined.

(** ** Room identifiers *)

Lemma toUpperCase_length s : String.length (toUpperCase s) = String.length s.
Proof. induction s as [|c s IH]; simpl; by rewrite ?IH. Qed.

Lemma substring_length n m s :
  String.length (String.substring n m s) = Nat.min m (String.length s - n).
Proof.
  revert n m. induction s as [|c s IH]; intros [|n] [|m]; simpl;
    rewrite ?IH, ?Nat.sub_0_r; try done; lia.
Qed.

Lemma upper_base36 c : base36 c → upper_alnum (upper c).
Proof.
  unfold base36, upper_alnum, upper. intros [H|H].
  - rewrite (proj2 (Nat.leb_gt _ _)) by lia. simpl. by left.
  - rewrite (proj2 (Nat.leb_le _ _)), (proj2 (Nat.leb_le _ _)) by lia. simpl.
    rewrite Ascii.nat_ascii_embedding by lia. right. lia.
Qed.

Lemma toUpperCase_base36 s :
  Forall base36 (String.list_ascii_of_string s) →
  Forall upper_alnum (String.list_ascii_of_string (toUpperCase s)).
Proof.
  induction s as [|c s IH]; simpl; intros H; [constructor|].
  apply Forall_cons in H as [Hc Hs]. constructor; [by apply upper_base36 | by apply IH].
Qed.

(** [generateRoomId] returns at most six characters: as many as the random
    string has after its first two, so fewer than six, or none at all, when
    that string is short.  When those characters are base-36 digits the id
    consists of digits and upper-case letters only. *)
Theorem generateRoomId_shape (random36 : string) :
  String.length (generateRoomId random36)
  = Nat.min 6 (String.length random36 - 2)
  ∧ String.length (generateRoomId random36) ≤ 6
  ∧ (String.length random36 ≤ 2 → generateRoomId random36 = EmptyString)
  ∧ (Forall base36 (String.list_ascii_of_string (String.substring 2 6 random36)) →
     Forall upper_alnum (String.list_ascii_of_string (generateRoomId random36))).
Proof.
  unfold generateRoomId.
  assert (Hlen : String.length (toUpperCase (String.substring 2 6 random36))
                 = Nat.min 6 (String.length random36 - 2))
    by by rewrite toUpperCase_length, substring_length.
  split_and!; [done | rewrite Hlen; apply Nat.le_min_l | | apply toUpperCase_base36].
  intros Hshort.
  replace (String.length random36 - 2) with 0 in Hlen by lia.
  by destruct (toUpperCase (String.substring 2 6 random36)).
Qed.

(** ** Allowed origins *)

Lemma split_comma_nonempty s : split_comma s ≠ [].
Proof.
  destruct s as [|c s]; simpl; [done|].
  destruct (Ascii.eqb c comma); [done|]. by destruct (split_comma s).
Qed.

Lemma split_comma_concat s :
  String.concat (String comma EmptyString) (split_comma s) = s.
Proof.
  induction s as [|c s IH]; simpl; [done|].
  destruct (Ascii.eqb_spec c comma) as [->|Hne].
  - pose proof (split_comma_nonempty s) as Hn.
    destruct (split_comma s) as [|piece rest] eqn:E; [done|].
    simpl in *. by rewrite IH.
  - pose proof (split_comma_nonempty s) as Hn.
    destruct (split_comma s) as [|piece rest] eqn:E; [done|].
    simpl in *. rewrite <- IH. by destruct rest.
Qed.

Lemma split_comma_pieces s : Forall (λ piece, ¬ occurs comma piece) (split_comma s).
Proof.
  induction s as [|c s IH]; simpl.
  - constructor; [|constructor]. by intros [].
  - destruct (Ascii.eqb_spec c comma) as [->|Hne].
    + constructor; [by intros [] | done].
    + pose proof (split_comma_nonempty s) as Hn.
      destruct (split_comma s) as [|piece rest]; [done|].
      apply Forall_cons in IH as [Hp Hrest]. constructor; [|done].
      intros [Hc|Hin]; [by destruct Hne | by destruct Hp].
Qed.

Lemma split_comma_length s : length (split_comma s) = S (commas s).
Proof.
  induction s as [|c s IH]; simpl; [done|].
  destruct (Ascii.eqb c comma); simpl; [by rewrite IH|].
  pose proof (split_comma_nonempty s) as Hn.
  destruct (split_comma s) as [|piece rest]; [done|]. simpl in *. done.
Qed.

(** With [ALLOWED_ORIGINS] unset or empty the only allowed origin is
    [http://localhost:3000].  Otherwise the allowed origins are the pieces
    of the value between its commas: there is one more piece than there are
    commas, no piece contains a comma, and the pieces joined by commas give
    the value back (nothing is trimmed or dropped, empty pieces
    included). *)
Theorem allowedOrigins_pieces (env : option string) :
  (env = None ∨ env = Some EmptyString →
   allowedOrigins env = ["http://localhost:3000"])
  ∧ (∀ s, env = Some s → s ≠ EmptyString →
       String.concat (String comma EmptyString) (allowedOrigins env) = s
       ∧ Forall (λ piece, ¬ occurs comma piece) (allowedOrigins env)
       ∧ length (allowedOrigins env) = S (commas s)).
Proof.
  split.
  - by intros [-> | ->].
  - intros s -> Hs. unfold allowedOrigins.
    destruct s as [|c s]; [done|]. unfold truthy.
    split_and!; [apply split_comma_concat | apply split_comma_pieces
                 | apply split_comma_length].
Qed.

(** ** The CORS middleware *)

Ltac not_in H :=
  repeat (apply elem_of_cons in H as [H|H]; [discriminate H|]);
  by apply elem_of_nil in H.

(** The middleware answers every [OPTIONS] request itself with status 200
    and never passes it on, whatever its origin; every other request is
    passed on and gets no status from the middleware.  It sets the four
    CORS headers when the request's origin is, verbatim, one of the allowed
    origins or when ["*"] is allowed, and no header otherwise; the
    [Access-Control-Allow-Origin] value is the request's own origin (absent
    when the request has none), never the wildcard. *)
Theorem cors_policy (allowed : list string) (req : Request) :
  (method req = "OPTIONS" →
   last (cors allowed req) = Some (SendStatus 200)
   ∧ ¬ (CallNext ∈ cors allowed req))
  ∧ (method req ≠ "OPTIONS" →
     last (cors allowed req) = Some CallNext
     ∧ ∀ code, ¬ (SendStatus code ∈ cors allowed req))
  ∧ ((∃ o, origin req = Some o ∧ o ∈ allowed) ∨ "*" ∈ allowed →
     header_fields (cors allowed req)
     = [ "Access-Control-Allow-Origin"; "Access-Control-Allow-Credentials";
         "Access-Control-Allow-Methods"; "Access-Control-Allow-Headers" ]
     ∧ SetHeader "Access-Control-Allow-Origin" (origin req) ∈ cors allowed req)
  ∧ (¬ ((∃ o, origin req = Some o ∧ o ∈ allowed) ∨ "*" ∈ allowed) →
     header_fields (cors allowed req) = [])
  ∧ (∀ v, SetHeader "Access-Control-Allow-Origin" v ∈ cors allowed req →
          v = origin req).
Proof.
  assert (Hinc : includes allowed (origin req) || includes allowed (Some "*") = true
                 ↔ (∃ o, origin req = Some o ∧ o ∈ allowed) ∨ "*" ∈ allowed).
  { rewrite orb_true_iff. unfold includes. destruct (origin req) as [o|].
    - rewrite !bool_decide_eq_true. split.
      + intros [H|H]; [left; by exists o | by right].
      + intros [(o' & [= <-] & H)|H]; [by left | by right].
    - rewrite bool_decide_eq_true. split.
      + intros [H|H]; [done | by right].
      + intros [(o' & [=] & _)|H]. by right. }
  unfold cors.
  destruct (includes allowed (origin req) || includes allowed (Some "*")) eqn:Hi;
    destruct (String.eqb_spec (method req) "OPTIONS") as [Hm|Hm]; simpl.
  - split; [intros _; split; [done|]; intros H; not_in H|].
    split; [done|].
    split; [intros _; split; [done | by left]|].
    split; [intros Hc; destruct Hc; by apply Hinc|].
    intros v H. apply elem_of_cons in H as [[= ->]|H]; [done|]. not_in H.
  - split; [done|].
    split; [intros _; split; [done|]; intros code H; not_in H|].
    split; [intros _; split; [done | by left]|].
    split; [intros Hc; destruct Hc; by apply Hinc|].
    intros v H. apply elem_of_cons in H as [[= ->]|H]; [done|]. not_in H.
  - split; [intros _; split; [done|]; intros H; not_in H|].
    split; [done|].
    split; [intros Hc; by apply Hinc in Hc|].
    split; [done|].
    intros v H. not_in H.
  - split; [done|].
    split; [intros _; split; [done|]; intros code H; not_in H|].
    split; [intros Hc; by apply Hinc in Hc|].
    split; [done|].
    intros v H. not_in H.
Qed.

(** ** The draw indicator of stored rooms *)

(** C5.  For every room of a registry reachable by events, the [isDraw]
    field of the snapshot [updateRoomState] broadcasts for it is true if and
    only if the move count equals 9 and the winner is [null]; it is never
    true when a winner is set.  On such a room this is the same as: all nine
    cells hold a mark and no winning triple is fully occupied by one mark;
    and the same as: the room is finished without a winner.  It arises from
    [makeMove] alone: a legal move is accepted, and the room after it is a
    draw exactly when it was the ninth move and completed no triple. *)
Theorem reachable_isDraw (st : Server) (rid : string) (room : GameRoom.t) :
  reachable st →
  JsMap.get rid (rooms st) = Some room →
  updateRoomState rid st = [Emit (ToRoom rid) (game_state (snapshot room))]
  ∧ (isDraw (snapshot room) = true ↔
       GameRoom.moves room = 9 ∧ GameRoom.winner room = None)
  ∧ (is_Some (GameRoom.winner room) → isDraw (snapshot room) = false)
  ∧ (isDraw (snapshot room) = true ↔
       marks_on (GameRoom.board room) = 9
       ∧ ∀ p m, p ∈ winPatterns → ¬ occupies (GameRoom.board room) m p)
  ∧ (isDraw (snapshot room) = true ↔
       GameRoom.status room = finished ∧ GameRoom.winner room = None)
  ∧ (∀ i sid p,
       GameRoom.status room = playing →
       at_index (GameRoom.board room) i = Some None →
       first_entry sid (GameRoom.players room) p →
       GameRoom.symbol p = GameRoom.currentPlayer room →
       (GameRoom.makeMove i sid room).1 = true
       ∧ (isDraw (snapshot (GameRoom.makeMove i sid room).2) = true ↔
            GameRoom.moves room = 8
            ∧ ∀ q m, q ∈ winPatterns →
                ¬ occupies (<[Z.to_nat i := Some (GameRoom.currentPlayer room)]>
                              (GameRoom.board room)) m q)).
Proof.
  intros Hreach Hget.
  destruct (reachable_room_ok st rid room Hreach Hget)
    as [Hboard Hseats Hwait Hplay Hfin Hwin Hone Hmoves Hfull].
  split_and!.
  - unfold updateRoomState. by rewrite Hget.
  - apply snapshot_isDraw.
  - intros [m Hm]. apply not_true_is_false.
    intros [_ Hnone]%snapshot_isDraw. congruence.
  - by rewrite snapshot_isDraw, Hmoves, Hwin, checkWinner_None.
  - rewrite snapshot_isDraw. split.
    + intros [H9 Hnone]. split; [|done].
      destruct (GameRoom.status room) eqn:Hst; [| |done].
      * destruct (Hwait Hst) as (Hb & _). rewrite Hmoves, Hb in H9. discriminate.
      * destruct (Hplay eq_refl) as [_ Hlt]. lia.
    + intros [Hst Hnone]. split; [|done].
      destruct (Hfin Hst) as [[m Hm]|H9]; [congruence | done].
  - intros i sid p Hst Hcell Hp Hsym.
    assert (Hmove : (GameRoom.makeMove i sid room).1 = true).
    { apply makeMove_true. split_and!; [done..|]. by exists p. }
    split; [done|].
    rewrite (makeMove_result i sid room Hmove). cbv zeta.
    destruct (bool_decide (is_Some _) || bool_decide _);
      rewrite snapshot_isDraw; cbn [GameRoom.moves GameRoom.winner];
      rewrite checkWinner_None; split; intros [H ?]; (split; [lia | done]).
Qed.

Lemma reachable_isDraw_witness : isDraw (snapshot room_drawn) = true.
Proof.
  refine (proj2 (proj1 (proj2
    (reachable_isDraw (run draw_trace init).1 "R1" room_drawn _ eq_refl)))
    (conj eq_refl eq_refl)).
  apply reachable_run. constructor.
Defined.
